(** * alice: an additive dependency-injection container

    A shallow embedding of [container.go].  The container owns two Go maps,
    [instanceByName] and [instanceByType]; construction ([CreateContainer],
    [populate], [instantiateModule]) fills them, and the two queries
    ([Instance], [InstanceByName]) read them.  Go panics are modelled by an
    explicit [Panic] result, mutation of the container by state passing. *)

From stdpp Require Import base option list relations strings gmap fin_maps.

(** A call either returns or panics. *)
Inductive result (E A : Type) : Type :=
  | Ok (a : A)
  | Panic (e : E).
Arguments Ok {E A} a.
Arguments Panic {E A} e.

(** ** reflect.Type

    [reflect.Type] is an interface of the Go runtime.  The container only
    uses its values as map keys (they are comparable) and calls
    [AssignableTo] on them. *)
Class Reflect : Type := {
  rtype : Type;
  rtype_eq_dec :: EqDecision rtype;
  rtype_countable :: Countable rtype;
  AssignableTo : rtype → rtype → bool
}.

Section values.

Context `{Reflect}.

(** An [interface{}] value: either the nil interface, or a value with an
    identity (the pointer it holds) and a dynamic type. *)
Inductive instance : Type :=
  | nil_instance
  | object (addr : nat) (dyn : rtype).

#[global] Instance instance_eq_dec : EqDecision instance.
Proof. solve_decision. Defined.

(** [reflect.TypeOf]: the nil interface has the nil [reflect.Type]. *)
Definition TypeOf (i : instance) : option rtype :=
  match i with
  | nil_instance => None
  | object _ dyn => Some dyn
  end.

(** ** Panics

    The Go code panics with formatted strings or with the errors of its
    helpers; the constructors carry the names the specification gives them.
    - the error of [reflectModule]: [ModuleDescriptionError];
    - the errors of [createGraph] and [instantiationOrder]:
      [NameCollisionError] (two factories of one name; the specification
      gives this failure no name of its own) and [CyclicDependencyError],
      which carries the positions of the modules that could not be placed;
    - "instance name %s is not defined", "instance type %s is not defined":
      [InstanceNotFoundError];
    - "instance type %s has more than one instances defined":
      [AmbiguousInstanceError];
    - a method call on the nil [reflect.Type]: [NilPointerDereference];
    - [reflect.Value.Set] with a zero or non-assignable value:
      [ReflectSetPanic];
    - a panic of a factory, which is code of the caller: [FactoryPanic],
      with the name of the factory. *)
Inductive key : Type :=
  | ByName (name : string)
  | ByType (t : rtype).

Inductive panic : Type :=
  | ModuleDescriptionError
  | NameCollisionError
  | CyclicDependencyError (stuck : list nat)
  | InstanceNotFoundError (k : key)
  | AmbiguousInstanceError (t : rtype)
  | NilPointerDereference
  | ReflectSetPanic
  | FactoryPanic (name : string).

(** ** Reflected modules

    The struct [reflectedModule] is declared outside [container.go]; its
    fields are the ones [instantiateModule] reads.  A dependency's [field]
    is a settable [reflect.Value]: what matters of it is its type.  A
    factory [method] is a bound method of the module, so what it does may
    depend on the values injected into the module's fields.  It is code of
    the caller: called on these values it either panics ([im_panics]) or
    returns an instance ([im_method], read only when the call returns). *)
Record namedDepend : Type := NamedDepend {
  nd_name : string;
  nd_field : rtype
}.

Record typedDepend : Type := TypedDepend {
  td_tp : rtype;
  td_field : rtype
}.

Record instanceMethod : Type := InstanceMethod {
  im_name : string;
  im_tp : rtype;
  im_method : list instance → instance;
  im_panics : list instance → bool
}.

Record reflectedModule : Type := ReflectedModule {
  namedDepends : list namedDepend;
  typedDepends : list typedDepend;
  instances : list instanceMethod
}.

End values.

(** Modelled from the spec: [Module] and [reflectModule] (the module
    descriptor extractor, section 4.1) are not in [container.go].  Given a
    module, [reflectModule] returns its descriptor, or fails when the module
    is malformed; how it inspects the module is left to the extractor. *)
Class Extractor `{Reflect} : Type := {
  Module : Type;
  reflectModule : Module → option reflectedModule
}.

Section monad.

Context `{Extractor}.

(** ** The container and the world it runs in *)
Record container : Type := Container {
  modules : list Module;
  instanceByName : gmap string instance;
  instanceByType : gmap rtype (list instance)
}.

(** The state threaded through the code: the container, and a log of the
    factory invocations ([method.Call]) that have returned so far, each with
    the instance it returned. *)
Record state : Type := State {
  ctr : container;
  calls : list (instanceMethod * instance)
}.

Definition M (A : Type) : Type := state → result panic A * state.

Definition ret {A} (a : A) : M A := λ st, (Ok a, st).

Definition bind {A B} (m : M A) (k : A → M B) : M B := λ st,
  match m st with
  | (Ok a, st') => k a st'
  | (Panic e, st') => (Panic e, st')
  end.

Definition raise {A} (e : panic) : M A := λ st, (Panic e, st).

(** A helper's result, or its panic, passed on to the caller. *)
Definition liftResult {A} (r : result panic A) : M A :=
  match r with
  | Ok a => ret a
  | Panic e => raise e
  end.

Definition getContainer : M container := λ st, (Ok (ctr st), st).

Definition setContainer (c : container) : M unit := λ st,
  (Ok tt, {| ctr := c; calls := calls st |}).

Definition logCall (im : instanceMethod) (i : instance) : M unit := λ st,
  (Ok tt, {| ctr := ctr st; calls := calls st ++ [(im, i)] |}).

End monad.

Notation "x ← m ; k" := (bind m (λ x, k))
  (at level 20, m at level 100, k at level 200, only parsing).
Notation "m ;; k" := (bind m (λ _, k))
  (at level 100, k at level 200, right associativity, only parsing).

Section container.

Context `{Extractor}.

(** A [for ... range] loop over a slice whose body collects a value. *)
Fixpoint forEach {A B} (body : A → M B) (l : list A) : M (list B) :=
  match l with
  | [] => ret []
  | a :: l' => b ← body a; bs ← forEach body l'; ret (b :: bs)
  end.

(** A [for ... range] loop run for its effect only. *)
Fixpoint forEach_ {A} (body : A → M unit) (l : list A) : M unit :=
  match l with
  | [] => ret tt
  | a :: l' => body a;; forEach_ body l'
  end.

(** ** Queries *)

(** [findInstanceByName] (lines 100-106). *)
Definition findInstanceByName (name : string) : M instance :=
  c ← getContainer;
  match instanceByName c !! name with
  | Some i => ret i
  | None => raise (InstanceNotFoundError (ByName name))
  end.

(** One iteration of the loop of [findAssignableInstances]: the found slice
    grows by the instance when its dynamic type is assignable to [t]; the
    nil instance has the nil [reflect.Type], and calling [AssignableTo] on
    it dereferences nil. *)
Definition scanStep (t : rtype) (found : list instance) (i : instance)
    : result panic (list instance) :=
  match TypeOf i with
  | None => Panic NilPointerDereference
  | Some instanceType =>
      if AssignableTo instanceType t then Ok (found ++ [i]) else Ok found
  end.

Fixpoint scan (t : rtype) (found : list instance) (l : list instance)
    : result panic (list instance) :=
  match l with
  | [] => Ok found
  | i :: l' =>
      match scanStep t found i with
      | Ok found' => scan t found' l'
      | Panic e => Panic e
      end
  end.

(** [findAssignableInstances] (lines 108-117) ranges over [instanceByName];
    Go leaves the iteration order of a map unspecified, the model ranges in
    the order of [map_to_list] ([scan_order] below shows that the order does
    not change what [findInstanceByType] makes of the result). *)
Definition findAssignableInstances (t : rtype) : M (list instance) :=
  c ← getContainer;
  liftResult (scan t [] (map_to_list (instanceByName c)).*2).

(** The two length checks at the end of [findInstanceByType]. *)
Definition single (t : rtype) (found : list instance)
    : result panic instance :=
  match found with
  | [] => Panic (InstanceNotFoundError (ByType t))
  | [i] => Ok i
  | _ :: _ :: _ => Panic (AmbiguousInstanceError t)
  end.

(** [findInstanceByType] (lines 85-98). *)
Definition findInstanceByType (t : rtype) : M instance :=
  c ← getContainer;
  found ← match instanceByType c !! t with
          | Some l => ret l
          | None => findAssignableInstances t
          end;
  liftResult (single t found).

(** [Instance] and [InstanceByName] (lines 37-43). *)
Definition Instance (t : rtype) : M instance := findInstanceByType t.
Definition InstanceByName (name : string) : M instance := findInstanceByName name.

(** ** Construction *)

(** [dep.field.Set(reflect.ValueOf(instance))]: [reflect.ValueOf] of the nil
    interface is the zero [Value], on which [Set] panics; otherwise [Set]
    panics unless the value's type is assignable to the field's type. *)
Definition fieldSet (field : rtype) (v : instance) : M unit :=
  match TypeOf v with
  | None => raise ReflectSetPanic
  | Some valueType =>
      if AssignableTo valueType field then ret tt else raise ReflectSetPanic
  end.

(** The three assignments that end the factory loop (lines 77-81): the name
    is bound to the instance, and the instance is appended to the slice of
    its declared type (a missing entry reads as the nil slice). *)
Definition register (im : instanceMethod) (i : instance) (c : container)
    : container :=
  {| modules := modules c;
     instanceByName := <[im_name im := i]> (instanceByName c);
     instanceByType :=
       <[im_tp im := default [] (instanceByType c !! im_tp im) ++ [i]]>
         (instanceByType c) |}.

Definition resolveNamed (dep : namedDepend) : M instance :=
  i ← findInstanceByName (nd_name dep);
  fieldSet (nd_field dep) i;;
  ret i.

Definition resolveTyped (dep : typedDepend) : M instance :=
  i ← findInstanceByType (td_tp dep);
  fieldSet (td_field dep) i;;
  ret i.

(** The body of the factory loop: the method is called on the module, whose
    fields hold the injected values; a panic of the method goes up to the
    caller, otherwise its result is registered. *)
Definition produce (fields : list instance) (im : instanceMethod) : M unit :=
  if im_panics im fields then raise (FactoryPanic (im_name im))
  else
    let i := im_method im fields in
    logCall im i;;
    c ← getContainer;
    setContainer (register im i c).

(** [instantiateModule] (lines 64-83). *)
Definition instantiateModule (rm : reflectedModule) : M unit :=
  named ← forEach resolveNamed (namedDepends rm);
  typed ← forEach resolveTyped (typedDepends rm);
  forEach_ (produce (named ++ typed)) (instances rm).

(** [reflectModules] (lines 119-129) ranges over [c.modules], not over its
    argument. *)
Definition reflectModules (_ : list Module) : M (list reflectedModule) :=
  c ← getContainer;
  forEach (λ m, match reflectModule m with
                | Some rm => ret rm
                | None => raise ModuleDescriptionError
                end) (modules c).

(** ** The dependency graph *)

(** The positions, counted from [i], of the modules with a factory that
    satisfies [p]. *)
Fixpoint providersFrom (p : instanceMethod → bool) (i : nat)
    (rms : list reflectedModule) : list nat :=
  match rms with
  | [] => []
  | rm :: rest =>
      if existsb p (instances rm)
      then i :: providersFrom p (S i) rest
      else providersFrom p (S i) rest
  end.

Definition providers (p : instanceMethod → bool) (rms : list reflectedModule)
    : list nat :=
  providersFrom p 0 rms.

Definition namedCandidates (rms : list reflectedModule) (name : string)
    : list nat :=
  providers (λ im, bool_decide (im_name im = name)) rms.

Definition typedCandidates (rms : list reflectedModule) (t : rtype)
    : list nat :=
  match providers (λ im, bool_decide (im_tp im = t)) rms with
  | [] => providers (λ im, AssignableTo (im_tp im) t) rms
  | exact => exact
  end.

Definition dependsOn (rms : list reflectedModule) (rm : reflectedModule)
    : list nat :=
  flat_map (λ dep, namedCandidates rms (nd_name dep)) (namedDepends rm)
  ++ flat_map (λ dep, typedCandidates rms (td_tp dep)) (typedDepends rm).

Definition factoryNames (rms : list reflectedModule) : list string :=
  flat_map (λ rm, map im_name (instances rm)) rms.

(** A graph over the modules, each named by its position in [vertices];
    [dependencies] lists, per module, the modules it must come after. *)
Record graph : Type := Graph {
  vertices : list reflectedModule;
  dependencies : list (list nat)
}.

(** Modelled from the spec: [createGraph] (the dependency graph builder,
    section 4.2) is not in [container.go].  Factory names must be globally
    unique, and two factories with one name make construction fail
    (sections 3 and 8).  Every dependency slot gives an edge to each module
    with a factory that could satisfy it: by exact name for a named slot, by
    exact declared type for a typed slot, else by assignability of the
    declared type; a slot nobody satisfies gives no edge and no error. *)
Definition createGraph (rms : list reflectedModule) : result panic graph :=
  if decide (NoDup (factoryNames rms))
  then Ok {| vertices := rms; dependencies := dependsOn rms <$> rms |}
  else Panic NameCollisionError.

Definition dependenciesOf (g : graph) (v : nat) : list nat :=
  default [] (dependencies g !! v).

(** A module is ready once every module it depends on has been placed. *)
Definition ready (g : graph) (placed : list nat) (v : nat) : bool :=
  forallb (λ d, bool_decide (d ∈ placed)) (dependenciesOf g v).

(** The first element that satisfies [ok], and the others in their order. *)
Fixpoint pickFirst (ok : nat → bool) (waiting : list nat)
    : option (nat * list nat) :=
  match waiting with
  | [] => None
  | v :: rest =>
      if ok v then Some (v, rest)
      else match pickFirst ok rest with
           | Some (w, rest') => Some (w, v :: rest')
           | None => None
           end
  end.

Fixpoint schedule (g : graph) (fuel : nat) (placed waiting : list nat)
    : result panic (list nat) :=
  match waiting with
  | [] => Ok placed
  | _ :: _ =>
      match fuel with
      | 0 => Panic (CyclicDependencyError waiting)
      | S fuel' =>
          match pickFirst (ready g placed) waiting with
          | Some (v, rest) => schedule g fuel' (placed ++ [v]) rest
          | None => Panic (CyclicDependencyError waiting)
          end
      end
  end.

(** Modelled from the spec: [instantiationOrder] (the topological scheduler,
    section 4.3) is not in [container.go].  A Kahn-style sort: the next
    module is the first one, in input order, whose dependencies have all
    been placed; when modules remain and none is ready the graph has a cycle
    and the remaining modules are reported. *)
Definition instantiationOrder (g : graph)
    : result panic (list reflectedModule) :=
  let n := length (vertices g) in
  match schedule g n [] (seq 0 n) with
  | Ok order => Ok (omap (λ v, vertices g !! v) order)
  | Panic e => Panic e
  end.

(** [populate] (lines 45-62). *)
Definition populate : M unit :=
  c ← getContainer;
  rms ← reflectModules (modules c);
  g ← liftResult (createGraph rms);
  orderedRms ← liftResult (instantiationOrder g);
  c ← getContainer;
  setContainer {| modules := modules c;
                  instanceByName := ∅;
                  instanceByType := ∅ |};;
  forEach_ instantiateModule orderedRms.

(** The container [CreateContainer] allocates: only [modules] is set, and
    the nil maps read as empty ones. *)
Definition newContainer (ms : list Module) : container :=
  {| modules := ms; instanceByName := ∅; instanceByType := ∅ |}.

Definition initial (ms : list Module) : state :=
  {| ctr := newContainer ms; calls := [] |}.

(** [CreateContainer] (lines 11-17): the container is returned only when
    [populate] did not panic. *)
Definition CreateContainer (ms : list Module) : result panic container * state :=
  match populate (initial ms) with
  | (Ok _, st) => (Ok (ctr st), st)
  | (Panic e, st) => (Panic e, st)
  end.

End container.

(** ** Notions the statements below use *)

Section notions.

Context `{Extractor}.

(** A query made on the container after construction.  A query that panics
    aborts only itself: the next one runs on the state it left. *)
Inductive query : Type :=
  | QueryInstance (t : rtype)
  | QueryInstanceByName (name : string).

Definition runQuery (q : query) : M instance :=
  match q with
  | QueryInstance t => Instance t
  | QueryInstanceByName name => InstanceByName name
  end.

Fixpoint afterQueries (qs : list query) (st : state) : state :=
  match qs with
  | [] => st
  | q :: qs' => afterQueries qs' (runQuery q st).2
  end.

(** The container reached from [c] by the registrations of a log, in the
    order of the log. *)
Definition replay (c : container) (log : list (instanceMethod * instance))
    : container :=
  foldl (λ c' call, register call.1 call.2 c') c log.

(** The name bindings a log makes, and the instances it produces for the
    declared type [t], both in the order of the log. *)
Definition bindings (log : list (instanceMethod * instance))
    : list (string * instance) :=
  map (λ call, (im_name call.1, call.2)) log.

Definition producedOfType (t : rtype) (log : list (instanceMethod * instance))
    : list instance :=
  map snd (filter (λ call, im_tp call.1 = t) log).

(** The factory declarations of a list of modules. *)
Definition factories (rms : list reflectedModule) : list instanceMethod :=
  flat_map instances rms.

(** The descriptors of a list of modules, when all of them are well formed. *)
Definition reflectAll (ms : list Module) : option (list reflectedModule) :=
  mapM reflectModule ms.

(** The edges of the dependency graph, and its cycles. *)
Definition edge (g : graph) (v w : nat) : Prop := w ∈ dependenciesOf g v.

Definition cyclic (g : graph) : Prop := ∃ v, tc (edge g) v v.

(** An instance is assignable to [t] when it has a type and that type is. *)
Definition assignable (t : rtype) (i : instance) : bool :=
  match TypeOf i with
  | Some ty => AssignableTo ty t
  | None => false
  end.

(** An order of the modules in which every module comes after the modules
    it depends on. *)
Definition providersFirst (g : graph) (idx : list nat) : Prop :=
  ∀ k v w, idx !! k = Some v → edge g v w → w ∈ take k idx.

(** The calls of the factory loop that return, on a module whose fields
    hold [fields]: those before the first factory that panics. *)
Fixpoint returned (fields : list instance) (ims : list instanceMethod)
    : list (instanceMethod * instance) :=
  match ims with
  | [] => []
  | im :: rest =>
      if im_panics im fields then []
      else (im, im_method im fields) :: returned fields rest
  end.

(** What the factory loop ends with: the panic of the first factory that
    panics, if any. *)
Definition factoriesOutcome (fields : list instance)
    (ims : list instanceMethod) : result panic unit :=
  match find (λ im, im_panics im fields) ims with
  | Some im => Panic (FactoryPanic (im_name im))
  | None => Ok tt
  end.

(** The factory calls made between two states. *)
Definition newCalls (st st' : state) : list (instanceMethod * instance) :=
  drop (length (calls st)) (calls st').

(** No entry of the type index is the empty slice. *)
Definition entriesNonEmpty (c : container) : Prop :=
  ∀ t, instanceByType c !! t ≠ Some [].

(** A named slot whose name is bound to an instance that can be set in its
    field, and a typed slot for which the lookup by type returns such an
    instance. *)
Definition namedResolves (st : state) (dep : namedDepend) : Prop :=
  ∃ i, instanceByName (ctr st) !! nd_name dep = Some i
       ∧ assignable (nd_field dep) i.

Definition typedResolves (st : state) (dep : typedDepend) : Prop :=
  ∃ i, (findInstanceByType (td_tp dep) st).1 = Ok i
       ∧ assignable (td_field dep) i.

(** The values injected in the fields of a module whose slots resolve in
    a state: those of the named slots, then those of the typed slots. *)
Definition injected (st : state) (rm : reflectedModule) : list instance :=
  omap (λ dep, instanceByName (ctr st) !! nd_name dep) (namedDepends rm)
  ++ omap (λ dep, match (findInstanceByType (td_tp dep) st).1 with
                  | Ok i => Some i
                  | Panic _ => None
                  end) (typedDepends rm).

(** A module all of whose slots resolve in a state and all of whose
    factories return on the injected values; a list of modules each of
    which is so in the state the modules before it leave. *)
Definition moduleSucceeds (st : state) (rm : reflectedModule) : Prop :=
  Forall (namedResolves st) (namedDepends rm)
  ∧ Forall (typedResolves st) (typedDepends rm)
  ∧ Forall (λ im, im_panics im (injected st rm) = false) (instances rm).




(** The panics raised while a dependency slot is resolved and injected. *)
Definition slotPanic (e : panic) : Prop :=
  match e with
  | InstanceNotFoundError _ | AmbiguousInstanceError _
  | NilPointerDereference | ReflectSetPanic => True
  | _ => False
  end.

(** The instances held by the name index and by the type index. *)
Definition namedInstances (c : container) : list instance :=
  (map_to_list (instanceByName c)).*2.

Definition typedInstances (c : container) : list instance :=
  concat (map_to_list (instanceByType c)).*2.

(** The fallback the specification's design note compares the code with:
    the same scan, over every instance stored in the type index. *)
Definition findAssignableInTypeIndex (t : rtype) : M (list instance) :=
  c ← getContainer;
  liftResult (scan t [] (typedInstances c)).

Definition findInstanceByTypeOverTypeIndex (t : rtype) : M instance :=
  c ← getContainer;
  found ← match instanceByType c !! t with
          | Some l => ret l
          | None => findAssignableInTypeIndex t
          end;
  liftResult (single t found).

End notions.

(** ** Sample modules

    Types are named by strings; [Store] is an interface that [Database]
    implements.  A module is either malformed or comes with its descriptor. *)

Definition sampleAssignable (v t : string) : bool :=
  bool_decide (v = t)
  || (bool_decide (t = "Store") && bool_decide (v = "Database")).

Definition sampleReflect : Reflect :=
  {| rtype := string; AssignableTo := sampleAssignable |}.

Definition sampleExtractor : @Extractor sampleReflect :=
  {| Module := option (@reflectedModule sampleReflect);
     reflectModule := λ m, m |}.

Section samples.

#[local] Existing Instance sampleReflect.
#[local] Existing Instance sampleExtractor.

(** Module A of the specification's scenario: a named slot "db" and a
    factory "svc" of type [Service]. *)
Definition moduleA : reflectedModule :=
  {| namedDepends := [NamedDepend "db" "Database"];
     typedDepends := [];
     instances := [InstanceMethod "svc" "Service" (λ _, object 1 "Service") (λ _, false)] |}.

(** Module B of the scenario: a factory "db" of type [Database]. *)
Definition factoryDb : instanceMethod :=
  InstanceMethod "db" "Database" (λ _, object 2 "Database") (λ _, false).

Definition moduleB : reflectedModule :=
  {| namedDepends := []; typedDepends := []; instances := [factoryDb] |}.

(** A second provider of the name "db". *)
Definition factoryDb' : instanceMethod :=
  InstanceMethod "db" "Cache" (λ _, object 3 "Cache") (λ _, false).

Definition moduleB' : reflectedModule :=
  {| namedDepends := []; typedDepends := []; instances := [factoryDb'] |}.

(** A module whose factory, declared of the interface type [Store], returns
    the nil interface. *)
Definition moduleNil : reflectedModule :=
  {| namedDepends := [];
     typedDepends := [];
     instances := [InstanceMethod "store" "Store" (λ _, nil_instance) (λ _, false)] |}.

(** Two modules that need each other. *)
Definition modulePing : reflectedModule :=
  {| namedDepends := [NamedDepend "pong" "Pong"];
     typedDepends := [];
     instances := [InstanceMethod "ping" "Ping" (λ _, object 4 "Ping") (λ _, false)] |}.

Definition modulePong : reflectedModule :=
  {| namedDepends := [];
     typedDepends := [TypedDepend "Ping" "Ping"];
     instances := [InstanceMethod "pong" "Pong" (λ _, object 5 "Pong") (λ _, false)] |}.

(** A module that needs what its own factory makes. *)
Definition moduleSelf : reflectedModule :=
  {| namedDepends := [NamedDepend "self" "Self"];
     typedDepends := [];
     instances := [InstanceMethod "self" "Self" (λ _, object 6 "Self") (λ _, false)] |}.

(** A module that wants the instance named "db" in a field of type
    [Service], and the instance of type [Store] in a field of type [Store]. *)
Definition moduleWrong : reflectedModule :=
  {| namedDepends := [NamedDepend "db" "Service"];
     typedDepends := [TypedDepend "Store" "Store"];
     instances := [InstanceMethod "wrong" "Wrong" (λ _, object 7 "Wrong") (λ _, false)] |}.

(** A module that wants two instances by type. *)
Definition moduleTyped : reflectedModule :=
  {| namedDepends := [];
     typedDepends := [TypedDepend "Database" "Database";
                      TypedDepend "Logger" "Logger"];
     instances := [InstanceMethod "typed" "Typed" (λ _, object 8 "Typed") (λ _, false)] |}.

(** A module whose second factory panics. *)
Definition moduleBoom : reflectedModule :=
  {| namedDepends := [];
     typedDepends := [];
     instances :=
       [InstanceMethod "first" "First" (λ _, object 9 "First") (λ _, false);
        InstanceMethod "boom" "Boom" (λ _, nil_instance) (λ _, true);
        InstanceMethod "never" "Never" (λ _, object 10 "Never")
          (λ _, false)] |}.

(** The state after module B has been instantiated twice: two instances of
    the declared type [Database], one binding of "db". *)
Definition twice : state :=
  (forEach_ instantiateModule [moduleB; moduleB] (initial [])).2.

(** The state a successful construction of the scenario leaves. *)
Definition scenario : state := (CreateContainer [Some moduleA; Some moduleB]).2.

(** The state after constructing a container around [moduleNil]. *)
Definition withNil : state := (CreateContainer [Some moduleB; Some moduleNil]).2.

End samples.

(** * Properties *)

(** ** The queries *)

Section queries.

Context `{Extractor}.

Implicit Types (st : state) (c : container) (t : rtype) (i : instance).
Implicit Types (l found : list instance).

(** The scan panics exactly when it meets the nil instance; otherwise it
    appends the assignable instances in the order it meets them. *)
Lemma scan_panics t l found :
  nil_instance ∈ l → scan t found l = Panic NilPointerDereference.
Proof.
  revert found. induction l as [|i l IH]; intros found Hin.
  - by apply elem_of_nil in Hin.
  - simpl. unfold scanStep. destruct i as [|a ty]; simpl; [done|].
    apply elem_of_cons in Hin as [Hin|Hin]; [done|].
    destruct (AssignableTo ty t); by apply IH.
Qed.

Lemma scan_returns t l found :
  nil_instance ∉ l →
  scan t found l = Ok (found ++ filter (λ i, assignable t i) l).
Proof.
  revert found. induction l as [|i l IH]; intros found Hnin.
  - simpl. by rewrite app_nil_r.
  - apply not_elem_of_cons in Hnin as [Hne Hnin].
    simpl. unfold scanStep. destruct i as [|a ty]; [done|]. simpl.
    destruct (AssignableTo ty t) eqn:Ha.
    + rewrite filter_cons_True by (unfold assignable; simpl; rewrite Ha; exact I).
      rewrite IH by done. by rewrite <- app_assoc.
    + rewrite filter_cons_False
        by (unfold assignable; simpl; rewrite Ha; exact id).
      by rewrite IH.
Qed.

Lemma single_Permutation t l1 l2 : l1 ≡ₚ l2 → single t l1 = single t l2.
Proof.
  intros Hp. pose proof (Permutation_length Hp) as Hlen.
  destruct l1 as [|x [|y l1]]; destruct l2 as [|x' [|y' l2]];
    simpl in Hlen; try done.
  apply Permutation_singleton_l in Hp. by simplify_eq.
Qed.

(** What the caller of the scan sees does not depend on the order in which
    the map is ranged over. *)
Lemma scan_order t l1 l2 :
  l1 ≡ₚ l2 →
  match scan t [] l1 with Ok found => single t found | Panic e => Panic e end
  = match scan t [] l2 with Ok found => single t found | Panic e => Panic e end.
Proof.
  intros Hp. destruct (decide (nil_instance ∈ l1)) as [Hin|Hnin].
  - rewrite !scan_panics; [done| by rewrite <- Hp |done].
  - rewrite !scan_returns; [|by rewrite <- Hp|done]. simpl.
    apply single_Permutation. by rewrite Hp.
Qed.

Lemma findInstanceByName_run st name :
  findInstanceByName name st
  = (match instanceByName (ctr st) !! name with
     | Some i => Ok i
     | None => Panic (InstanceNotFoundError (ByName name))
     end, st).
Proof.
  unfold findInstanceByName, bind, getContainer.
  by destruct (instanceByName (ctr st) !! name).
Qed.

Lemma findInstanceByType_run st t :
  findInstanceByType t st
  = (match instanceByType (ctr st) !! t with
     | Some l => single t l
     | None =>
         match scan t [] (namedInstances (ctr st)) with
         | Ok found => single t found
         | Panic e => Panic e
         end
     end, st).
Proof.
  unfold findInstanceByType, findAssignableInstances, namedInstances,
    bind, getContainer, liftResult, ret, raise.
  destruct (instanceByType (ctr st) !! t) as [l|].
  - by destruct (single t l).
  - destruct (scan t [] _) as [found|e]; [|done]. by destruct (single t found).
Qed.

Lemma runQuery_state q st : (runQuery q st).2 = st.
Proof.
  destruct q as [t|name]; simpl; unfold Instance, InstanceByName.
  - by rewrite findInstanceByType_run.
  - by rewrite findInstanceByName_run.
Qed.

Lemma afterQueries_state qs st : afterQueries qs st = st.
Proof.
  revert st. induction qs as [|q qs IH]; intros st; [done|].
  simpl. by rewrite runQuery_state.
Qed.

(** The type-based lookup when no registered instance is nil. *)
Lemma Instance_run st t :
  nil_instance ∉ namedInstances (ctr st) →
  Instance t st
  = (match instanceByType (ctr st) !! t with
     | Some l => single t l
     | None => single t (filter (λ i, assignable t i) (namedInstances (ctr st)))
     end, st).
Proof.
  intros Hnil. unfold Instance. rewrite findInstanceByType_run.
  destruct (instanceByType (ctr st) !! t); [done|]. by rewrite scan_returns.
Qed.

(** C7.  [InstanceByName] is an exact lookup in the name index: it panics
    with [InstanceNotFoundError] when the name is not bound, returns the
    bound instance otherwise, and returns the same result after any number
    of queries made in between. *)
Theorem InstanceByName_exact st name :
  (instanceByName (ctr st) !! name = None →
     InstanceByName name st = (Panic (InstanceNotFoundError (ByName name)), st))
  ∧ (∀ i, instanceByName (ctr st) !! name = Some i →
       InstanceByName name st = (Ok i, st))
  ∧ (∀ qs, InstanceByName name (afterQueries qs st) = InstanceByName name st).
Proof.
  unfold InstanceByName. split_and!.
  - intros Hnone. by rewrite findInstanceByName_run, Hnone.
  - intros i Hsome. by rewrite findInstanceByName_run, Hsome.
  - intros qs. by rewrite afterQueries_state.
Qed.

(** C8.  [Instance] and [InstanceByName] leave the state as they found it,
    whether they return or panic: both indices (and the log of factory
    calls) are unchanged, and so is the result of any later query. *)
Theorem queries_frame st q :
  (runQuery q st).2 = st
  ∧ instanceByName (ctr (runQuery q st).2) = instanceByName (ctr st)
  ∧ instanceByType (ctr (runQuery q st).2) = instanceByType (ctr st)
  ∧ (∀ qs q', runQuery q' (afterQueries (q :: qs) st) = runQuery q' st).
Proof.
  split_and!; try by rewrite runQuery_state.
  intros qs q'. by rewrite afterQueries_state.
Qed.

(** C10.  When the name index holds a nil instance and the exact-type index
    has no entry for [t], [Instance t] panics with a nil dereference, not
    with [InstanceNotFoundError] or [AmbiguousInstanceError]. *)
Theorem Instance_nil_dereference st t name :
  instanceByName (ctr st) !! name = Some nil_instance →
  instanceByType (ctr st) !! t = None →
  Instance t st = (Panic NilPointerDereference, st).
Proof.
  intros Hname Htype. unfold Instance.
  rewrite findInstanceByType_run, Htype, scan_panics; [done|].
  unfold namedInstances. apply list_elem_of_fmap.
  exists (name, nil_instance). split; [done|].
  by apply elem_of_map_to_list.
Qed.

End queries.

(** ** Instantiating one module *)

Section executor.

Context `{Extractor}.

Implicit Types (st : state) (c : container) (t : rtype) (i : instance).
Implicit Types (rm : reflectedModule) (im : instanceMethod).
Implicit Types (log : list (instanceMethod * instance)).

(** A loop whose body leaves the state alone leaves it alone, returns the
    bodies' results when all return, and panics with the first panic. *)
Lemma forEach_frame {A B} (body : A → M B) (l : list A) st :
  (∀ a st', (body a st').2 = st') → (forEach body l st).2 = st.
Proof.
  intros Hbody. induction l as [|a l IH]; [done|].
  simpl. unfold bind. specialize (Hbody a st).
  destruct (body a st) as [[b|e] st1]; simpl in *; subst; [|done].
  destruct (forEach body l st) as [[bs|e] st2]; simpl in *; by subst.
Qed.

Lemma forEach_Ok {A B} (body : A → M B) (l : list A) st bs :
  (∀ a st', (body a st').2 = st') →
  (forEach body l st).1 = Ok bs →
  Forall2 (λ a b, (body a st).1 = Ok b) l bs.
Proof.
  intros Hbody. revert bs. induction l as [|a l IH]; intros bs; simpl.
  - intros [= <-]. constructor.
  - unfold bind. pose proof (Hbody a st) as Ha.
    destruct (body a st) as [[b|e] st1] eqn:Hb; simpl in *; subst; [|done].
    destruct (forEach body l st) as [[bs'|e] st2]; simpl in *; [|done].
    intros [= <-]. constructor; [by rewrite Hb|by apply IH].
Qed.

Lemma forEach_Panic {A B} (body : A → M B) (pre post : list A) a st e :
  (∀ a' st', (body a' st').2 = st') →
  Forall (λ a', ∃ b, (body a' st).1 = Ok b) pre →
  (body a st).1 = Panic e →
  (forEach body (pre ++ a :: post) st).1 = Panic e.
Proof.
  intros Hbody Hpre Ha. induction Hpre as [|a' pre [b Hb] _ IH]; simpl.
  - unfold bind. destruct (body a st) as [[b|e'] st1]; simpl in *; by simplify_eq.
  - unfold bind. pose proof (Hbody a' st) as Ha'.
    destruct (body a' st) as [[b'|e'] st1]; simpl in *; simplify_eq.
    destruct (forEach body (pre ++ a :: post) st) as [[bs|e'] st2];
      simpl in *; by simplify_eq.
Qed.

Lemma fieldSet_run field i st :
  fieldSet field i st
  = (if assignable field i then Ok tt else Panic ReflectSetPanic, st).
Proof.
  unfold fieldSet, assignable. destruct (TypeOf i) as [ty|]; [|done].
  by destruct (AssignableTo ty field).
Qed.

Lemma resolveNamed_run dep st :
  resolveNamed dep st
  = (match instanceByName (ctr st) !! nd_name dep with
     | Some i => if assignable (nd_field dep) i then Ok i
                 else Panic ReflectSetPanic
     | None => Panic (InstanceNotFoundError (ByName (nd_name dep)))
     end, st).
Proof.
  unfold resolveNamed, bind. rewrite findInstanceByName_run.
  destruct (instanceByName (ctr st) !! nd_name dep) as [i|]; [|done].
  rewrite fieldSet_run. by destruct (assignable (nd_field dep) i).
Qed.

Lemma resolveTyped_run dep st :
  resolveTyped dep st
  = (match (findInstanceByType (td_tp dep) st).1 with
     | Ok i => if assignable (td_field dep) i then Ok i
               else Panic ReflectSetPanic
     | Panic e => Panic e
     end, st).
Proof.
  unfold resolveTyped, bind. rewrite findInstanceByType_run. simpl.
  match goal with |- context [match ?r with Ok _ => _ | Panic _ => _ end] =>
    destruct r as [i|e] end; [|done].
  rewrite fieldSet_run. by destruct (assignable (td_field dep) i).
Qed.

Lemma resolveNamed_frame dep st : (resolveNamed dep st).2 = st.
Proof. by rewrite resolveNamed_run. Qed.

Lemma resolveTyped_frame dep st : (resolveTyped dep st).2 = st.
Proof. by rewrite resolveTyped_run. Qed.

(** The factory loop of a module whose fields hold [fields]: it registers
    the calls that return and ends with the panic of the first factory that
    panics, if any. *)
Lemma produce_all fields (ims : list instanceMethod) st :
  forEach_ (produce fields) ims st
  = (factoriesOutcome fields ims,
     {| ctr := replay (ctr st) (returned fields ims);
        calls := calls st ++ returned fields ims |}).
Proof.
  revert st. induction ims as [|im ims IH]; intros [c log0].
  - simpl. unfold ret, factoriesOutcome. simpl. by rewrite app_nil_r.
  - cbn [forEach_ returned]. unfold bind at 1. unfold produce at 1.
    unfold factoriesOutcome. cbn [find].
    destruct (im_panics im fields) eqn:Hp.
    + unfold raise. simpl. by rewrite app_nil_r.
    + unfold bind, logCall, getContainer, setContainer. simpl.
      rewrite IH. unfold factoriesOutcome. simpl. by rewrite <- app_assoc.
Qed.

Lemma returned_all fields (ims : list instanceMethod) :
  Forall (λ im, im_panics im fields = false) ims ↔
  factoriesOutcome fields ims = Ok tt.
Proof.
  unfold factoriesOutcome. induction ims as [|im ims IH]; simpl.
  - split; [done|constructor].
  - destruct (im_panics im fields) eqn:Hp.
    + split; [|done]. intros Hall. apply Forall_cons in Hall as [Him _].
      congruence.
    + rewrite <- IH. split.
      * intros Hall. by apply Forall_cons in Hall as [_ ?].
      * intros Hall. by constructor.
Qed.

Lemma returned_map fields (ims : list instanceMethod) :
  factoriesOutcome fields ims = Ok tt →
  returned fields ims = map (λ im, (im, im_method im fields)) ims.
Proof.
  intros Hall%returned_all.
  induction Hall as [|im ims Him _ IH]; [done|]. simpl. by rewrite Him, IH.
Qed.

(** The calls that return are the first factories, in order. *)
Lemma returned_prefix fields (ims : list instanceMethod) :
  map fst (returned fields ims) `prefix_of` ims
  ∧ Forall (λ call, call.2 = im_method call.1 fields) (returned fields ims).
Proof.
  induction ims as [|im ims [IHp IHf]]; simpl.
  - split; [done|constructor].
  - destruct (im_panics im fields); simpl.
    + split; [apply prefix_nil|constructor].
    + split; [by apply prefix_cons|by constructor].
Qed.

(** [instantiateModule] either panics while it resolves the slots, leaving
    the state as it was, or resolves them all and then runs the factory
    loop on the injected values. *)
Lemma instantiateModule_run rm st :
  instantiateModule rm st
  = match (forEach resolveNamed (namedDepends rm) st).1 with
    | Panic e => (Panic e, st)
    | Ok named =>
        match (forEach resolveTyped (typedDepends rm) st).1 with
        | Panic e => (Panic e, st)
        | Ok typed =>
            let log := returned (named ++ typed) (instances rm) in
            (factoriesOutcome (named ++ typed) (instances rm),
             {| ctr := replay (ctr st) log; calls := calls st ++ log |})
        end
    end.
Proof.
  unfold instantiateModule, bind.
  pose proof (forEach_frame resolveNamed (namedDepends rm) st resolveNamed_frame).
  destruct (forEach resolveNamed (namedDepends rm) st) as [[named|e] st1];
    simpl in *; subst; [|done].
  pose proof (forEach_frame resolveTyped (typedDepends rm) st resolveTyped_frame).
  destruct (forEach resolveTyped (typedDepends rm) st) as [[typed|e] st1];
    simpl in *; subst; [|done].
  apply produce_all.
Qed.

End executor.

(** ** Registrations *)

Section registry.

Context `{Extractor}.

Implicit Types (st : state) (c : container) (t : rtype) (i : instance).
Implicit Types (rm : reflectedModule) (im : instanceMethod).
Implicit Types (log : list (instanceMethod * instance)).

Lemma register_byName im i c name :
  instanceByName (register im i c) !! name
  = if decide (im_name im = name) then Some i else instanceByName c !! name.
Proof. simpl. by rewrite lookup_insert. Qed.

Lemma register_byType im i c t :
  instanceByType (register im i c) !! t
  = if decide (im_tp im = t)
    then Some (default [] (instanceByType c !! t) ++ [i])
    else instanceByType c !! t.
Proof. simpl. rewrite lookup_insert. case_decide; by subst. Qed.

Lemma replay_cons c call log :
  replay c (call :: log) = replay (register call.1 call.2 c) log.
Proof. done. Qed.

Lemma replay_app c log1 log2 :
  replay c (log1 ++ log2) = replay (replay c log1) log2.
Proof. apply foldl_app. Qed.

Lemma replay_modules c log : modules (replay c log) = modules c.
Proof.
  revert c. induction log as [|call log IH]; intros c; [done|].
  rewrite replay_cons, IH. done.
Qed.

(** The name index after a log: the later binding of a name wins. *)
Lemma replay_byName c log :
  instanceByName (replay c log)
  = list_to_map (reverse (bindings log)) ∪ instanceByName c.
Proof.
  revert c. induction log as [|[im i] log IH]; intros c.
  - simpl. by rewrite (left_id_L ∅ (∪)).
  - rewrite replay_cons, IH. simpl.
    rewrite reverse_cons, list_to_map_app. simpl.
    rewrite insert_empty, <- (assoc_L (∪)).
    by rewrite <- insert_union_singleton_l.
Qed.

(** The type index after a log: the instances the log produces for a type
    are appended, in order, to the entry of that type. *)
Lemma replay_byType c log t :
  instanceByType (replay c log) !! t
  = match producedOfType t log with
    | [] => instanceByType c !! t
    | new => Some (default [] (instanceByType c !! t) ++ new)
    end.
Proof.
  revert c. induction log as [|[im i] log IH]; intros c; [done|].
  rewrite replay_cons, IH, register_byType. unfold producedOfType. simpl.
  destruct (decide (im_tp im = t)) as [Heq|Hne].
  - rewrite filter_cons_True by done. simpl.
    destruct (map snd (filter _ log)) as [|j new]; [done|].
    by rewrite <- app_assoc.
  - by rewrite filter_cons_False by done.
Qed.

Lemma bindings_produced (f : instanceMethod → instance) ims :
  (bindings (map (λ im, (im, f im)) ims)).*1 = map im_name ims.
Proof. induction ims as [|im ims IH]; [done|]. simpl. by rewrite <- IH. Qed.

Lemma bindings_names log : (bindings log).*1 = map im_name (map fst log).
Proof. induction log as [|call log IH]; [done|]. simpl. by rewrite <- IH. Qed.

Lemma replay_byName_fresh c log name :
  name ∉ (bindings log).*1 →
  instanceByName (replay c log) !! name = instanceByName c !! name.
Proof.
  intros Hfresh. rewrite replay_byName, lookup_union_r; [done|].
  apply not_elem_of_list_to_map_1. by rewrite fmap_reverse, elem_of_reverse.
Qed.

Lemma replay_byName_bound c log im i :
  NoDup (bindings log).*1 → (im, i) ∈ log →
  instanceByName (replay c log) !! im_name im = Some i.
Proof.
  intros Hnodup Hin. rewrite replay_byName. apply lookup_union_Some_l.
  apply elem_of_list_to_map_1.
  - by rewrite fmap_reverse, reverse_Permutation.
  - rewrite elem_of_reverse. unfold bindings.
    apply list_elem_of_fmap. by exists (im, i).
Qed.

Lemma replay_byType_elem c log im i :
  (im, i) ∈ log →
  ∃ l, instanceByType (replay c log) !! im_tp im = Some l ∧ i ∈ l.
Proof.
  intros Hin. rewrite replay_byType.
  assert (i ∈ producedOfType (im_tp im) log) as Hi.
  { unfold producedOfType. apply list_elem_of_fmap. exists (im, i).
    split; [done|]. by apply list_elem_of_filter. }
  destruct (producedOfType (im_tp im) log) as [|j new] eqn:Hp.
  - by apply elem_of_nil in Hi.
  - eexists. split; [done|]. apply elem_of_app. by right.
Qed.

End registry.


(** ** The scheduler *)

Section scheduler.

Context `{Extractor}.

Implicit Types (g : graph) (placed waiting order : list nat).

Lemma pickFirst_Some ok waiting v rest :
  pickFirst ok waiting = Some (v, rest) →
  ok v = true ∧ waiting ≡ₚ v :: rest.
Proof.
  revert v rest. induction waiting as [|x waiting IH]; intros v rest; [done|].
  simpl. destruct (ok x) eqn:Hx.
  - intros [= <- <-]. done.
  - destruct (pickFirst ok waiting) as [[w rest']|]; [|done].
    intros [= <- <-]. destruct (IH w rest' eq_refl) as [Hw Hp].
    split; [done|]. rewrite Hp. apply Permutation_swap.
Qed.


Lemma ready_true g placed v :
  ready g placed v = true → ∀ w, edge g v w → w ∈ placed.
Proof.
  unfold ready, edge. intros Hall w Hw.
  apply Is_true_true, forallb_True in Hall.
  rewrite Forall_forall in Hall. apply Hall in Hw.
  by apply bool_decide_unpack in Hw.
Qed.


(** A module on a cycle depends on a module on a cycle. *)
Lemma cycle_successor g v :
  tc (edge g) v v → ∃ w, edge g v w ∧ tc (edge g) w w.
Proof.
  intros Hv. inversion Hv as [? ? Hstep|? w ? Hstep Hrest]; subst.
  - by exists v.
  - exists w. split; [done|]. eapply tc_transitive; [exact Hrest|].
    by apply tc_once.
Qed.


Lemma schedule_Permutation g fuel placed waiting order :
  schedule g fuel placed waiting = Ok order → order ≡ₚ placed ++ waiting.
Proof.
  revert placed waiting.
  induction fuel as [|fuel IH]; intros placed [|x waiting]; cbn [schedule];
    try (intros [= <-]; by rewrite app_nil_r); try done.
  destruct (pickFirst _ _) as [[v rest]|] eqn:Hpick; [|done].
  intros Hrun. apply IH in Hrun. apply pickFirst_Some in Hpick as [_ Hp].
  rewrite Hrun, Hp, <- app_assoc. done.
Qed.

Lemma schedule_Panic g fuel placed waiting e :
  schedule g fuel placed waiting = Panic e →
  ∃ stuck, e = CyclicDependencyError stuck.
Proof.
  revert placed waiting.
  induction fuel as [|fuel IH]; intros placed [|x waiting]; cbn [schedule]; try done.
  - intros [= <-]. by eexists.
  - destruct (pickFirst _ _) as [[v rest]|] eqn:Hpick.
    + apply IH.
    + intros [= <-]. by eexists.
Qed.

(** No module on a cycle is ever placed, so a cycle among the waiting
    modules keeps the scheduler from finishing. *)
Lemma schedule_cyclic g fuel placed waiting v :
  (∀ w, tc (edge g) w w → w ∉ placed) →
  tc (edge g) v v → v ∈ waiting →
  ∃ stuck, schedule g fuel placed waiting = Panic (CyclicDependencyError stuck).
Proof.
  revert placed waiting.
  induction fuel as [|fuel IH]; intros placed [|x waiting] Hinv Hv Hin;
    try (by apply elem_of_nil in Hin); cbn [schedule]; [by eexists|].
  destruct (pickFirst _ _) as [[u rest]|] eqn:Hpick; [|by eexists].
  apply pickFirst_Some in Hpick as [Hready Hp].
  assert (¬ tc (edge g) u u) as Hu.
  { intros Hcyc. destruct (cycle_successor g u Hcyc) as (w & Huw & Hw).
    apply (Hinv w Hw). by eapply ready_true. }
  apply IH; [|done|].
  - intros w Hw Hplaced. apply elem_of_app in Hplaced as [Hplaced|Hplaced].
    + by apply (Hinv w).
    + apply list_elem_of_singleton in Hplaced as ->. done.
  - rewrite Hp in Hin. apply elem_of_cons in Hin as [->|Hin]; done.
Qed.


End scheduler.

(** ** The graph and the order of instantiation *)

Section ordering.

Context `{Extractor}.

Implicit Types (g : graph) (rm : reflectedModule) (rms : list reflectedModule).

Lemma providersFrom_bound p i rms w :
  w ∈ providersFrom p i rms → i ≤ w < i + length rms.
Proof.
  revert i. induction rms as [|rm rms IH]; intros i; simpl.
  - by intros ?%elem_of_nil.
  - destruct (existsb p (instances rm)).
    + intros [->|Hw%IH]%elem_of_cons; lia.
    + intros Hw%IH. lia.
Qed.

Lemma namedCandidates_bound rms name w :
  w ∈ namedCandidates rms name → w < length rms.
Proof. intros Hw%providersFrom_bound. lia. Qed.

Lemma typedCandidates_bound rms t w :
  w ∈ typedCandidates rms t → w < length rms.
Proof.
  unfold typedCandidates, providers.
  destruct (providersFrom _ 0 rms) as [|x exact] eqn:Hexact.
  - intros Hw%providersFrom_bound. lia.
  - rewrite <- Hexact. intros Hw%providersFrom_bound. lia.
Qed.

Lemma dependsOn_bound rms rm w : w ∈ dependsOn rms rm → w < length rms.
Proof.
  unfold dependsOn. rewrite elem_of_app, !list_elem_of_In, !in_flat_map.
  intros [(dep & _ & Hw)|(dep & _ & Hw)]; apply list_elem_of_In in Hw.
  - by eapply namedCandidates_bound.
  - by eapply typedCandidates_bound.
Qed.

Lemma createGraph_Ok rms g :
  createGraph rms = Ok g →
  NoDup (factoryNames rms)
  ∧ vertices g = rms ∧ dependencies g = dependsOn rms <$> rms.
Proof. unfold createGraph. case_decide; [|done]. by intros [= <-]. Qed.

(** The edges of a graph made by [createGraph] join positions of modules. *)
Lemma createGraph_edge rms g v w :
  createGraph rms = Ok g → edge g v w →
  v < length (vertices g) ∧ w < length (vertices g).
Proof.
  intros (_ & -> & Hdeps)%createGraph_Ok. unfold edge, dependenciesOf.
  rewrite Hdeps, list_lookup_fmap.
  destruct (rms !! v) as [rm|] eqn:Hv; simpl.
  - intros Hw%dependsOn_bound. split; [by eapply lookup_lt_Some|done].
  - by intros ?%elem_of_nil.
Qed.

Lemma omap_lookup_seq {A} (pre l : list A) :
  omap (λ v, (pre ++ l) !! v) (seq (length pre) (length l)) = l.
Proof.
  revert pre. induction l as [|a l IH]; intros pre; [done|].
  simpl. rewrite list_lookup_middle by done. f_equal.
  specialize (IH (pre ++ [a])).
  rewrite <- app_assoc, length_app in IH. simpl in IH.
  by rewrite Nat.add_1_r in IH.
Qed.

(** The order, when there is one, lists every module once. *)
Lemma instantiationOrder_Permutation g order :
  instantiationOrder g = Ok order → order ≡ₚ vertices g.
Proof.
  unfold instantiationOrder.
  destruct (schedule g _ [] _) as [idx|e] eqn:Hrun; [|done].
  intros [= <-]. apply schedule_Permutation in Hrun. simpl in Hrun.
  rewrite Hrun. exact (reflexive_eq _ _ (omap_lookup_seq [] (vertices g))).
Qed.

Lemma instantiationOrder_Panic g e :
  instantiationOrder g = Panic e → ∃ stuck, e = CyclicDependencyError stuck.
Proof.
  unfold instantiationOrder.
  destruct (schedule g _ [] _) as [idx|e'] eqn:Hrun; [done|].
  intros [= <-]. by eapply schedule_Panic.
Qed.

Lemma instantiationOrder_cyclic rms g :
  createGraph rms = Ok g → cyclic g →
  ∃ stuck, instantiationOrder g = Panic (CyclicDependencyError stuck).
Proof.
  intros Hg [v Hv]. unfold instantiationOrder.
  destruct (schedule_cyclic g (length (vertices g)) []
              (seq 0 (length (vertices g))) v) as [stuck Hrun].
  - intros w _ ?%elem_of_nil. done.
  - done.
  - destruct (cycle_successor g v Hv) as (w & Hvw & _).
    destruct (createGraph_edge rms g v w Hg Hvw) as [Hlt _].
    apply elem_of_seq. lia.
  - exists stuck. by rewrite Hrun.
Qed.


End ordering.

(** ** Construction as a whole *)

Section construction.

Context `{Extractor}.

Implicit Types (st : state) (c : container) (t : rtype) (i : instance).
Implicit Types (rm : reflectedModule) (rms order : list reflectedModule).
Implicit Types (log : list (instanceMethod * instance)) (ms : list Module).

Lemma scan_Panic t l found e :
  scan t found l = Panic e → e = NilPointerDereference.
Proof.
  revert found. induction l as [|i l IH]; intros found; [done|].
  simpl. unfold scanStep. destruct (TypeOf i) as [ty|]; [|by intros [= <-]].
  destruct (AssignableTo ty t); apply IH.
Qed.

Lemma single_Panic t l e : single t l = Panic e → slotPanic e.
Proof. destruct l as [|x [|y l]]; simpl; by intros [= <-]. Qed.

Lemma findInstanceByType_Panic t st e :
  (findInstanceByType t st).1 = Panic e → slotPanic e.
Proof.
  rewrite findInstanceByType_run. simpl.
  destruct (instanceByType (ctr st) !! t) as [l|]; [apply single_Panic|].
  destruct (scan t [] _) as [found|e'] eqn:Hscan; [apply single_Panic|].
  intros [= <-]. by apply scan_Panic in Hscan as ->.
Qed.

Lemma forEach_Panic_kind {A B} (P : panic → Prop) (body : A → M B) l st e :
  (∀ a st' e', (body a st').1 = Panic e' → P e') →
  (forEach body l st).1 = Panic e → P e.
Proof.
  intros Hbody. revert st. induction l as [|a l IH]; intros st; [done|].
  simpl. unfold bind. specialize (Hbody a st).
  destruct (body a st) as [[b|e'] st1]; simpl in *; [|intros [= <-]; eauto].
  specialize (IH st1).
  destruct (forEach body l st1) as [[bs|e'] st2]; simpl in *; [done|].
  intros [= <-]. eauto.
Qed.

Lemma resolveNamed_Panic dep st e :
  (resolveNamed dep st).1 = Panic e → slotPanic e.
Proof.
  rewrite resolveNamed_run. simpl.
  destruct (instanceByName _ !! _) as [i|]; [|by intros [= <-]].
  destruct (assignable _ i); [done|]. by intros [= <-].
Qed.

Lemma resolveTyped_Panic dep st e :
  (resolveTyped dep st).1 = Panic e → slotPanic e.
Proof.
  rewrite resolveTyped_run. simpl.
  destruct (findInstanceByType _ st).1 as [i|e3] eqn:Hf.
  - destruct (assignable _ i); [done|]. by intros [= <-].
  - intros [= <-]. by eapply findInstanceByType_Panic.
Qed.

Lemma factoriesOutcome_Panic fields (ims : list instanceMethod) e :
  factoriesOutcome fields ims = Panic e →
  ∃ done_ im rest,
    ims = done_ ++ im :: rest ∧ e = FactoryPanic (im_name im)
    ∧ returned fields ims = map (λ im', (im', im_method im' fields)) done_.
Proof.
  unfold factoriesOutcome. induction ims as [|im ims IH]; [done|]. simpl.
  destruct (im_panics im fields) eqn:Hp.
  - intros [= <-]. by exists [], im, ims.
  - intros Hrest. destruct (IH Hrest) as (done_ & im' & rest & -> & -> & Hret).
    exists (im :: done_), im', rest. simpl. by rewrite Hret.
Qed.

(** A panic of [instantiateModule] is that of a slot, with the state as it
    was, or that of one of its factories. *)
Lemma instantiateModule_Panic rm st e :
  (instantiateModule rm st).1 = Panic e →
  (slotPanic e ∧ (instantiateModule rm st).2 = st)
  ∨ (∃ im, im ∈ instances rm ∧ e = FactoryPanic (im_name im)).
Proof.
  rewrite instantiateModule_run.
  destruct (forEach resolveNamed _ st).1 as [named|e1] eqn:Hn.
  - destruct (forEach resolveTyped _ st).1 as [typed|e2] eqn:Ht.
    + simpl. intros (done_ & im & rest & Hims & -> & _)%factoriesOutcome_Panic.
      right. exists im. split; [|done]. rewrite Hims.
      apply elem_of_app. right. apply list_elem_of_here.
    + simpl. intros [= <-]. left. split; [|done]. revert Ht.
      apply forEach_Panic_kind. intros dep st' e'. apply resolveTyped_Panic.
  - simpl. intros [= <-]. left. split; [|done]. revert Hn.
    apply forEach_Panic_kind. intros dep st' e'. apply resolveNamed_Panic.
Qed.

(** What a module leaves: the calls of its factories that returned, which
    are its first factories in order, and all of them when it returns. *)
Lemma instantiateModule_log rm st :
  ∃ log,
    (instantiateModule rm st).2
    = {| ctr := replay (ctr st) log; calls := calls st ++ log |}
    ∧ map fst log `prefix_of` instances rm
    ∧ ((instantiateModule rm st).1 = Ok tt → map fst log = instances rm)
    ∧ Forall (λ call, ∃ fields, call.2 = im_method call.1 fields) log.
Proof.
  rewrite instantiateModule_run.
  assert (∀ e, ∃ log,
            (Panic e : result panic unit, st).2
            = {| ctr := replay (ctr st) log; calls := calls st ++ log |}
            ∧ map fst log `prefix_of` instances rm
            ∧ ((Panic e : result panic unit, st).1 = Ok tt →
               map fst log = instances rm)
            ∧ Forall (λ call, ∃ fields, call.2 = im_method call.1 fields) log)
    as Hslot.
  { intros e. exists []. destruct st. simpl. rewrite app_nil_r.
    split_and!; [done|apply prefix_nil|done|constructor]. }
  destruct (forEach resolveNamed _ st).1 as [named|e1]; [|apply Hslot].
  destruct (forEach resolveTyped _ st).1 as [typed|e2]; [|apply Hslot].
  cbv zeta. exists (returned (named ++ typed) (instances rm)).
  destruct (returned_prefix (named ++ typed) (instances rm)) as [Hpre Hform].
  split_and!; [done|done| |].
  - simpl. intros Hok. rewrite returned_map by done.
    clear. induction (instances rm) as [|im ims IH]; [done|].
    simpl. by rewrite IH.
  - eapply Forall_impl; [exact Hform|]. intros call Hcall.
    by exists (named ++ typed).
Qed.

Lemma instantiateModule_Ok rm st :
  (instantiateModule rm st).1 = Ok tt →
  ∃ log, map fst log = instances rm
         ∧ (instantiateModule rm st).2
           = {| ctr := replay (ctr st) log; calls := calls st ++ log |}.
Proof.
  intros Hok. destruct (instantiateModule_log rm st) as (log & Hst & _ & Hall & _).
  exists log. split; [by apply Hall|done].
Qed.

(** The loop of [populate]: what it has registered is what its factory
    calls returned, the factories called are the first of the factories of
    the modules in order, all of them when the loop ends without a panic,
    and a panic comes from a slot or from a factory. *)
Lemma instantiateAll_run order st :
  let out := forEach_ instantiateModule order st in
  ∃ log,
    out.2 = {| ctr := replay (ctr st) log; calls := calls st ++ log |}
    ∧ map fst log `prefix_of` factories order
    ∧ (out.1 = Ok tt → map fst log = factories order)
    ∧ (∀ e, out.1 = Panic e → slotPanic e ∨ ∃ name, e = FactoryPanic name).
Proof.
  revert st. induction order as [|rm order IH]; intros st; simpl.
  - exists []. destruct st. simpl. by rewrite app_nil_r.
  - unfold bind.
    destruct (instantiateModule_log rm st) as (log1 & Hst & Hpre1 & Hall1 & _).
    destruct (instantiateModule rm st) as [[[]|e] st1] eqn:Hrm;
      simpl in Hst, Hall1; subst st1.
    + destruct (IH {| ctr := replay (ctr st) log1; calls := calls st ++ log1 |})
        as (log2 & Hst2 & Hpre & Hok & Hpanic).
      exists (log1 ++ log2). simpl in *. split_and!.
      * by rewrite Hst2, replay_app, app_assoc.
      * rewrite map_app, Hall1 by done. unfold factories. simpl.
        by apply prefix_app.
      * intros Hall. rewrite map_app, Hall1, (Hok Hall) by done. done.
      * done.
    + exists log1. simpl. split_and!.
      * done.
      * unfold factories. simpl. by apply prefix_app_r.
      * done.
      * intros e' [= <-].
        destruct (instantiateModule_Panic rm st e) as [[Hslot _]|(im & _ & ->)];
          [by rewrite Hrm|by left|right; by eexists].
Qed.

Lemma reflectModules_run arg st :
  reflectModules arg st
  = (match reflectAll (modules (ctr st)) with
     | Some rms => Ok rms
     | None => Panic ModuleDescriptionError
     end, st).
Proof.
  unfold reflectModules, bind at 1. unfold getContainer, reflectAll.
  induction (modules (ctr st)) as [|m ms IH]; [done|].
  cbn [forEach mapM]. unfold bind at 1.
  destruct (reflectModule m) as [rm|]; cbn; [|done].
  unfold bind at 1. rewrite IH. by destruct (mapM reflectModule ms).
Qed.

(** [populate] on a fresh container, step by step. *)
Lemma populate_run ms :
  populate (initial ms)
  = match reflectAll ms with
    | None => (Panic ModuleDescriptionError, initial ms)
    | Some rms =>
        match createGraph rms with
        | Panic e => (Panic e, initial ms)
        | Ok g =>
            match instantiationOrder g with
            | Panic e => (Panic e, initial ms)
            | Ok order => forEach_ instantiateModule order (initial ms)
            end
        end
    end.
Proof.
  unfold populate, bind at 1 2. unfold getContainer at 1.
  rewrite reflectModules_run. simpl.
  destruct (reflectAll ms) as [rms|]; [|done].
  unfold bind at 1. destruct (createGraph rms) as [g|e]; [|done]. simpl.
  unfold bind at 1. destruct (instantiationOrder g) as [order|e]; [|done].
  done.
Qed.

Lemma CreateContainer_state ms : (CreateContainer ms).2 = (populate (initial ms)).2.
Proof.
  unfold CreateContainer. by destruct (populate (initial ms)) as [[[]|e] st].
Qed.


Lemma factoryNames_factories rms : factoryNames rms = map im_name (factories rms).
Proof.
  unfold factoryNames, factories. induction rms as [|rm rms IH]; [done|].
  simpl. by rewrite map_app, IH.
Qed.

(** Whatever the outcome, the state [CreateContainer] leaves is the replay
    of its log of factory calls on the fresh container; the names the log
    binds are pairwise distinct. *)
Lemma CreateContainer_log ms :
  let st := (CreateContainer ms).2 in
  ctr st = replay (newContainer ms) (calls st)
  ∧ NoDup (bindings (calls st)).*1.
Proof.
  simpl. rewrite CreateContainer_state, populate_run.
  destruct (reflectAll ms) as [rms|]; [|split; [done|constructor]].
  destruct (createGraph rms) as [g|e] eqn:Hg; [|split; [done|constructor]].
  destruct (instantiationOrder g) as [order|e] eqn:Ho;
    [|split; [done|constructor]].
  destruct (instantiateAll_run order (initial ms)) as (log & -> & Hpre & _).
  cbn [ctr calls initial app]. split; [done|].
  apply createGraph_Ok in Hg as (Hnodup & Hv & _).
  apply instantiationOrder_Permutation in Ho. rewrite Hv in Ho.
  rewrite bindings_names.
  destruct Hpre as [rest Hrest].
  rewrite factoryNames_factories in Hnodup.
  assert (factories order ≡ₚ factories rms) as Hperm
    by (unfold factories; by apply Permutation_flat_map).
  rewrite <- Hperm, Hrest, map_app in Hnodup.
  by apply NoDup_app in Hnodup as [? _].
Qed.

End construction.

(** ** Providers come first *)

Section resolution.

Context `{Extractor}.

Implicit Types (st : state) (c : container) (t : rtype) (i : instance).
Implicit Types (g : graph) (im : instanceMethod).
Implicit Types (rm : reflectedModule) (rms pre rest : list reflectedModule).
Implicit Types (log : list (instanceMethod * instance)) (ms : list Module).

Lemma providersFrom_elem p k rms w rm :
  rms !! w = Some rm → existsb p (instances rm) = true →
  k + w ∈ providersFrom p k rms.
Proof.
  revert k w. induction rms as [|r rms IH]; intros k w; [done|].
  destruct w as [|w]; simpl.
  - intros [= ->] ->. rewrite Nat.add_0_r. apply list_elem_of_here.
  - intros Hw Hp. replace (k + S w) with (S k + w) by lia.
    destruct (existsb p (instances r)); [apply list_elem_of_further|];
      by apply IH.
Qed.

Lemma providers_elem p rms w rm im :
  rms !! w = Some rm → im ∈ instances rm → p im = true → w ∈ providers p rms.
Proof.
  intros Hw Him Hp. apply (providersFrom_elem p 0 rms w rm Hw).
  apply existsb_exists. exists im. split; [by apply list_elem_of_In|done].
Qed.

Lemma factories_elem rms im :
  im ∈ factories rms ↔ ∃ w rm, rms !! w = Some rm ∧ im ∈ instances rm.
Proof.
  unfold factories. rewrite list_elem_of_In, in_flat_map. split.
  - intros (rm & Hrm & Him).
    apply list_elem_of_In, list_elem_of_lookup in Hrm as [w Hw].
    exists w, rm. split; [done|by apply list_elem_of_In].
  - intros (w & rm & Hw & Him). exists rm.
    split; apply list_elem_of_In; [by eapply list_elem_of_lookup_2|done].
Qed.

Lemma createGraph_dependenciesOf rms g v rm :
  createGraph rms = Ok g → rms !! v = Some rm →
  dependenciesOf g v = dependsOn rms rm.
Proof.
  intros (_ & _ & Hdeps)%createGraph_Ok Hv. unfold dependenciesOf.
  by rewrite Hdeps, list_lookup_fmap, Hv.
Qed.

(** A module depends on the module of a factory that has the name of one of
    its named slots, or the exact type of one of its typed slots. *)
Lemma edge_named rms g v rm dep w rmw im :
  createGraph rms = Ok g → rms !! v = Some rm → dep ∈ namedDepends rm →
  rms !! w = Some rmw → im ∈ instances rmw → im_name im = nd_name dep →
  edge g v w.
Proof.
  intros Hg Hv Hdep Hw Him Hname. unfold edge.
  rewrite (createGraph_dependenciesOf rms g v rm Hg Hv). unfold dependsOn.
  apply elem_of_app. left. apply list_elem_of_In, in_flat_map.
  exists dep. split; [by apply list_elem_of_In|]. apply list_elem_of_In.
  eapply providers_elem; [done..|]. by apply bool_decide_eq_true.
Qed.

Lemma edge_typed rms g v rm dep w rmw im :
  createGraph rms = Ok g → rms !! v = Some rm → dep ∈ typedDepends rm →
  rms !! w = Some rmw → im ∈ instances rmw → im_tp im = td_tp dep →
  edge g v w.
Proof.
  intros Hg Hv Hdep Hw Him Htp. unfold edge.
  rewrite (createGraph_dependenciesOf rms g v rm Hg Hv). unfold dependsOn.
  apply elem_of_app. right. apply list_elem_of_In, in_flat_map.
  exists dep. split; [by apply list_elem_of_In|]. apply list_elem_of_In.
  unfold typedCandidates.
  assert (w ∈ providers (λ im', bool_decide (im_tp im' = td_tp dep)) rms)
    as Hexact.
  { eapply providers_elem; [done..|]. by apply bool_decide_eq_true. }
  destruct (providers _ rms) as [|x exact]; [by apply elem_of_nil in Hexact|].
  done.
Qed.

(** The scheduler places every module after the modules it depends on. *)
Lemma schedule_providersFirst g fuel placed waiting idx :
  schedule g fuel placed waiting = Ok idx →
  providersFirst g placed → providersFirst g idx.
Proof.
  revert placed waiting.
  induction fuel as [|fuel IH]; intros placed [|x waiting]; cbn [schedule];
    try (by intros [= <-]); try done.
  destruct (pickFirst _ _) as [[u rest]|] eqn:Hpick; [|done].
  apply pickFirst_Some in Hpick as [Hready _].
  intros Hrun Hplaced. apply (IH _ _ Hrun).
  intros k v w Hk Hvw. destruct (decide (k < length placed)) as [Hlt|Hge].
  - rewrite lookup_app_l in Hk by done.
    rewrite take_app_le by lia. by eapply Hplaced.
  - rewrite lookup_app_r in Hk by lia.
    apply list_lookup_singleton_Some in Hk as [Hk <-].
    replace k with (length placed) by lia. rewrite take_app_length.
    by eapply ready_true.
Qed.

Lemma instantiationOrder_providersFirst g order :
  instantiationOrder g = Ok order →
  ∃ idx, providersFirst g idx
         ∧ Forall2 (λ v rm, vertices g !! v = Some rm) idx order.
Proof.
  unfold instantiationOrder.
  destruct (schedule g _ [] _) as [idx|e] eqn:Hrun; [|done].
  intros [= <-]. exists idx. split.
  - apply (schedule_providersFirst _ _ _ _ _ Hrun).
    intros k v w Hk. by rewrite lookup_nil in Hk.
  - apply schedule_Permutation in Hrun. simpl in Hrun.
    assert (Forall (λ v, v < length (vertices g)) idx) as Hidx.
    { apply Forall_forall. intros v Hv. rewrite Hrun in Hv.
      apply elem_of_seq in Hv. lia. }
    clear Hrun. induction Hidx as [|v idx Hv _ IH]; [constructor|].
    simpl. apply lookup_lt_is_Some_2 in Hv as [rm Hrm]. rewrite Hrm.
    by constructor.
Qed.

Lemma forEach_all_Ok {A B} (body : A → M B) (l : list A) st :
  (∀ a st', (body a st').2 = st') →
  Forall (λ a, ∃ b, (body a st).1 = Ok b) l →
  ∃ bs, (forEach body l st).1 = Ok bs.
Proof.
  intros Hbody Hall. induction Hall as [|a l [b Hb] _ [bs IH]].
  - by exists [].
  - exists (b :: bs). simpl. unfold bind. pose proof (Hbody a st) as Ha.
    destruct (body a st) as [[b'|e] st1]; simpl in *; simplify_eq.
    destruct (forEach body l st) as [[bs'|e] st2]; simpl in *; by simplify_eq.
Qed.

Lemma filter_log t log :
  map fst (filter (λ call, im_tp call.1 = t) log)
  = filter (λ im, im_tp im = t) (map fst log).
Proof.
  induction log as [|[im i] log IH]; [done|]. simpl.
  destruct (decide (im_tp im = t)) as [Heq|Hne].
  - rewrite !filter_cons_True by done. simpl. by rewrite IH.
  - by rewrite !filter_cons_False by done.
Qed.

End resolution.

(** ** One module, from its slots to its factories *)

Section module_step.

Context `{Extractor}.

Implicit Types (st : state) (c : container) (t : rtype) (i : instance).
Implicit Types (rm : reflectedModule) (im : instanceMethod).

Lemma resolveNamed_Ok dep st i :
  (resolveNamed dep st).1 = Ok i
  ↔ instanceByName (ctr st) !! nd_name dep = Some i
    ∧ assignable (nd_field dep) i.
Proof.
  rewrite resolveNamed_run. simpl.
  destruct (instanceByName (ctr st) !! nd_name dep) as [j|];
    [|split; [done|by intros [? _]]].
  destruct (assignable (nd_field dep) j) eqn:Hset.
  - split; [intros [= ->]; by rewrite Hset|]. by intros [[= ->] _].
  - split; [done|]. intros [[= ->] Hi]. by rewrite Hset in Hi.
Qed.

Lemma resolveTyped_Ok dep st i :
  (resolveTyped dep st).1 = Ok i
  ↔ (findInstanceByType (td_tp dep) st).1 = Ok i
    ∧ assignable (td_field dep) i.
Proof.
  rewrite resolveTyped_run. simpl.
  destruct (findInstanceByType (td_tp dep) st).1 as [j|e];
    [|split; [done|by intros [? _]]].
  destruct (assignable (td_field dep) j) eqn:Hset.
  - split; [intros [= ->]; by rewrite Hset|]. by intros [[= ->] _].
  - split; [done|]. intros [[= ->] Hi]. by rewrite Hset in Hi.
Qed.

(** The slots all resolve exactly when the two loops over them return; the
    values they return are the injected ones. *)
Lemma named_resolved (deps : list namedDepend) st :
  match (forEach resolveNamed deps st).1 with
  | Ok named =>
      Forall (namedResolves st) deps
      ∧ Forall2 (λ d i, instanceByName (ctr st) !! nd_name d = Some i)
          deps named
      ∧ omap (λ dep, instanceByName (ctr st) !! nd_name dep) deps = named
  | Panic e => ¬ Forall (namedResolves st) deps
  end.
Proof.
  destruct (forEach resolveNamed deps st).1 as [named|e] eqn:Hn.
  - apply forEach_Ok in Hn; [|apply resolveNamed_frame].
    induction Hn as [|d i deps named Hd _ (IH1 & IH2 & IH3)];
      [by repeat constructor|].
    apply resolveNamed_Ok in Hd as [Hi Hset]. split_and!.
    + constructor; [by exists i|done].
    + by constructor.
    + simpl. rewrite Hi. f_equal. exact IH3.
  - intros Hall.
    destruct (forEach_all_Ok resolveNamed deps st
                resolveNamed_frame) as [named Hok]; [|congruence].
    eapply Forall_impl; [exact Hall|]. intros d (i & Hi & Hset).
    exists i. by apply resolveNamed_Ok.
Qed.

Lemma typed_resolved (deps : list typedDepend) st :
  match (forEach resolveTyped deps st).1 with
  | Ok typed =>
      Forall (typedResolves st) deps
      ∧ Forall2 (λ d i, (findInstanceByType (td_tp d) st).1 = Ok i)
          deps typed
      ∧ omap (λ dep, match (findInstanceByType (td_tp dep) st).1 with
                     | Ok i => Some i
                     | Panic _ => None
                     end) deps
        = typed
  | Panic e => ¬ Forall (typedResolves st) deps
  end.
Proof.
  destruct (forEach resolveTyped deps st).1 as [typed|e] eqn:Ht.
  - apply forEach_Ok in Ht; [|apply resolveTyped_frame].
    induction Ht as [|d i deps typed Hd _ (IH1 & IH2 & IH3)];
      [by repeat constructor|].
    apply resolveTyped_Ok in Hd as [Hi Hset]. split_and!.
    + constructor; [by exists i|done].
    + by constructor.
    + simpl. rewrite Hi. f_equal. exact IH3.
  - intros Hall.
    destruct (forEach_all_Ok resolveTyped deps st
                resolveTyped_frame) as [typed Hok]; [|congruence].
    eapply Forall_impl; [exact Hall|]. intros d (i & Hi & Hset).
    exists i. by apply resolveTyped_Ok.
Qed.

(** With slots that all resolve, the module is the factory loop on the
    injected values. *)
Lemma instantiateModule_ready rm st :
  Forall (namedResolves st) (namedDepends rm) →
  Forall (typedResolves st) (typedDepends rm) →
  instantiateModule rm st
  = (factoriesOutcome (injected st rm) (instances rm),
     {| ctr := replay (ctr st) (returned (injected st rm) (instances rm));
        calls := calls st ++ returned (injected st rm) (instances rm) |}).
Proof.
  intros Hnamed Htyped. rewrite instantiateModule_run. unfold injected.
  pose proof (named_resolved (namedDepends rm) st) as Hn.
  pose proof (typed_resolved (typedDepends rm) st) as Ht.
  destruct (forEach resolveNamed _ st).1 as [named|e1]; [|done].
  destruct (forEach resolveTyped _ st).1 as [typed|e2]; [|done].
  destruct Hn as (_ & _ & ->). by destruct Ht as (_ & _ & ->).
Qed.

(** With a slot that does not resolve, the module panics on a slot and the
    state is as it was. *)
Lemma instantiateModule_not_ready rm st :
  ¬ (Forall (namedResolves st) (namedDepends rm)
     ∧ Forall (typedResolves st) (typedDepends rm)) →
  ∃ e, instantiateModule rm st = (Panic e, st) ∧ slotPanic e.
Proof.
  intros Hnot. rewrite instantiateModule_run.
  pose proof (named_resolved (namedDepends rm) st) as Hn.
  pose proof (typed_resolved (typedDepends rm) st) as Ht.
  destruct (forEach resolveNamed _ st).1 as [named|e1] eqn:Hnamed.
  - destruct (forEach resolveTyped _ st).1 as [typed|e2] eqn:Htyped.
    + destruct Hnot. split; [apply Hn|apply Ht].
    + exists e2. split; [done|]. revert Htyped. apply forEach_Panic_kind.
      intros dep st' e'. apply resolveTyped_Panic.
  - exists e1. split; [done|]. revert Hnamed. apply forEach_Panic_kind.
    intros dep st' e'. apply resolveNamed_Panic.
Qed.

Lemma slotPanic_not_factory name : ¬ slotPanic (FactoryPanic name).
Proof. by intros []. Qed.

(** A module returns exactly when its slots resolve and its factories
    return. *)
Lemma instantiateModule_Ok_iff rm st :
  (instantiateModule rm st).1 = Ok tt ↔ moduleSucceeds st rm.
Proof.
  unfold moduleSucceeds. split.
  - intros Hok. pose proof (instantiateModule_run rm st) as Hrun.
    pose proof (named_resolved (namedDepends rm) st) as Hn.
    pose proof (typed_resolved (typedDepends rm) st) as Ht.
    destruct (forEach resolveNamed _ st).1 as [named|e1];
      [|by rewrite Hrun in Hok].
    destruct (forEach resolveTyped _ st).1 as [typed|e2];
      [|by rewrite Hrun in Hok].
    destruct Hn as (Hnamed & _ & _), Ht as (Htyped & _ & _).
    split_and!; [done..|]. apply returned_all.
    by rewrite instantiateModule_ready in Hok.
  - intros (Hnamed & Htyped & Hall).
    rewrite instantiateModule_ready by done. by apply returned_all.
Qed.

(** C6.  Processing a module first resolves every named slot by lookup in
    the name index, panicking with [InstanceNotFoundError] at the first slot
    whose name is not bound, then every typed slot by [findInstanceByType]
    (exact type, else assignable).  When a slot does not resolve the module
    panics on it and the state is untouched: no factory has run.  When every
    slot resolves, the factories are called in order on the injected
    values, up to the first one that panics, and each instance returned is
    registered in both indices; the module returns exactly when every slot
    resolves and every factory returns, having then called them all. *)
Theorem instantiateModule_resolves_then_produces rm st :
  let out := instantiateModule rm st in
  let fields := injected st rm in
  let log := returned fields (instances rm) in
  (∀ e, out.1 = Panic e → slotPanic e → out.2 = st)
  ∧ (∀ pre dep post,
       namedDepends rm = pre ++ dep :: post →
       Forall (λ d, ∃ i, instanceByName (ctr st) !! nd_name d = Some i
                         ∧ assignable (nd_field d) i) pre →
       instanceByName (ctr st) !! nd_name dep = None →
       out = (Panic (InstanceNotFoundError (ByName (nd_name dep))), st))
  ∧ (¬ (Forall (namedResolves st) (namedDepends rm)
        ∧ Forall (typedResolves st) (typedDepends rm)) →
     ∃ e, out = (Panic e, st) ∧ slotPanic e)
  ∧ (Forall (namedResolves st) (namedDepends rm) →
     Forall (typedResolves st) (typedDepends rm) →
     (∃ named typed,
        fields = named ++ typed
        ∧ Forall2 (λ d i, instanceByName (ctr st) !! nd_name d = Some i)
            (namedDepends rm) named
        ∧ Forall2 (λ d i, (findInstanceByType (td_tp d) st).1 = Ok i)
            (typedDepends rm) typed)
     ∧ out = (factoriesOutcome fields (instances rm),
              {| ctr := replay (ctr st) log; calls := calls st ++ log |})
     ∧ map fst log `prefix_of` instances rm
     ∧ Forall (λ call, call.2 = im_method call.1 fields) log
     ∧ (∀ im i, (im, i) ∈ log →
          ∃ l, instanceByType (ctr out.2) !! im_tp im = Some l ∧ i ∈ l)
     ∧ (NoDup (map im_name (instances rm)) →
        ∀ im i, (im, i) ∈ log →
          instanceByName (ctr out.2) !! im_name im = Some i))
  ∧ (out.1 = Ok tt ↔ moduleSucceeds st rm)
  ∧ (out.1 = Ok tt →
     log = map (λ im, (im, im_method im fields)) (instances rm)).
Proof.
  intros out fields log. split_and!.
  - intros e Hpanic Hslot.
    destruct (instantiateModule_Panic rm st e Hpanic)
      as [[_ Hst]|(im & _ & ->)]; [done|].
    by apply slotPanic_not_factory in Hslot.
  - intros pre dep post Hdeps Hpre Hnone. subst out.
    rewrite instantiateModule_run, Hdeps.
    erewrite forEach_Panic; [done|apply resolveNamed_frame| |].
    + eapply Forall_impl; [exact Hpre|]. intros d (i & Hi & Hset).
      exists i. by apply resolveNamed_Ok.
    + by rewrite resolveNamed_run, Hnone.
  - apply instantiateModule_not_ready.
  - intros Hnamed Htyped.
    assert (out = (factoriesOutcome fields (instances rm),
                   {| ctr := replay (ctr st) log; calls := calls st ++ log |}))
      as Hout by (by apply instantiateModule_ready).
    destruct (returned_prefix fields (instances rm)) as [Hpre Hform].
    split_and!.
    + pose proof (named_resolved (namedDepends rm) st) as Hn.
      pose proof (typed_resolved (typedDepends rm) st) as Ht.
      destruct (forEach resolveNamed _ st).1 as [named|e1]; [|done].
      destruct (forEach resolveTyped _ st).1 as [typed|e2]; [|done].
      destruct Hn as (_ & Hn2 & Hn3), Ht as (_ & Ht2 & Ht3).
      exists named, typed. split_and!; [|done..].
      subst fields. unfold injected. by rewrite Hn3, Ht3.
    + done.
    + done.
    + done.
    + intros im i Hin. rewrite Hout. cbn [snd ctr].
      by apply replay_byType_elem.
    + intros Hnodup im i Hin. rewrite Hout. cbn [snd ctr].
      apply replay_byName_bound; [|done]. rewrite bindings_names.
      destruct Hpre as [rest Hrest]. rewrite Hrest, map_app in Hnodup.
      by apply NoDup_app in Hnodup as [? _].
  - apply instantiateModule_Ok_iff.
  - intros Hok. apply instantiateModule_Ok_iff in Hok as Hready.
    destruct Hready as (Hnamed & Htyped & _).
    apply returned_map. subst out.
    by rewrite instantiateModule_ready in Hok.
Qed.






End module_step.

(** ** What construction guarantees *)

Section guarantees.

Context `{Extractor}.

Implicit Types (st : state) (c : container) (t : rtype) (i : instance).
Implicit Types (rm : reflectedModule) (rms order : list reflectedModule).
Implicit Types (log : list (instanceMethod * instance)) (ms : list Module).

(** Names that are pairwise distinct over all modules are not shared by two
    modules. *)
Lemma factoryNames_shared rms v w rm1 rm2 im1 im2 :
  NoDup (factoryNames rms) → v ≠ w →
  rms !! v = Some rm1 → rms !! w = Some rm2 →
  im1 ∈ instances rm1 → im2 ∈ instances rm2 →
  im_name im1 ≠ im_name im2.
Proof.
  unfold factoryNames. revert v w.
  induction rms as [|rm rms IH]; intros v w Hnodup Hvw Hv Hw H1 H2 Heq; [done|].
  simpl in Hnodup. apply NoDup_app in Hnodup as (_ & Hdisj & Hrest).
  assert (∀ u r im, rms !! u = Some r → im ∈ instances r →
            im_name im ∈ flat_map (λ rm, map im_name (instances rm)) rms)
    as Hin.
  { intros u r im Hu Him. apply list_elem_of_In, in_flat_map.
    exists r. split; [by eapply list_elem_of_In, list_elem_of_lookup_2|].
    apply list_elem_of_In, (list_elem_of_fmap_2 im_name). done. }
  destruct v as [|v], w as [|w]; simpl in *; simplify_eq.
  - apply (Hdisj (im_name im1)).
    + by apply (list_elem_of_fmap_2 im_name).
    + rewrite Heq. by eapply Hin.
  - apply (Hdisj (im_name im2)).
    + by apply (list_elem_of_fmap_2 im_name).
    + rewrite <- Heq. by eapply Hin.
  - eapply (IH v w); eauto.
Qed.

(** C3.  When the dependency graph of the modules has a cycle (a module
    that depends on itself included), [CreateContainer] panics with
    [CyclicDependencyError]; no factory has been called and both indices are
    empty. *)
Theorem cyclic_modules_rejected ms rms g :
  reflectAll ms = Some rms → createGraph rms = Ok g → cyclic g →
  ∃ stuck,
    CreateContainer ms = (Panic (CyclicDependencyError stuck), initial ms)
    ∧ calls (CreateContainer ms).2 = []
    ∧ instanceByName (ctr (CreateContainer ms).2) = ∅
    ∧ instanceByType (ctr (CreateContainer ms).2) = ∅.
Proof.
  intros Hrms Hg Hcyclic.
  destruct (instantiationOrder_cyclic rms g Hg Hcyclic) as [stuck Horder].
  exists stuck.
  assert (CreateContainer ms
          = (Panic (CyclicDependencyError stuck), initial ms)) as ->; [|done].
  unfold CreateContainer. by rewrite populate_run, Hrms, Hg, Horder.
Qed.

(** C4.  When two modules declare factories of one name, [CreateContainer]
    panics before it calls any factory: with the name collision when every
    module is well formed, with [ModuleDescriptionError] otherwise. *)
Theorem name_collision_rejected ms v w m1 m2 rm1 rm2 im1 im2 :
  v ≠ w → ms !! v = Some m1 → ms !! w = Some m2 →
  reflectModule m1 = Some rm1 → reflectModule m2 = Some rm2 →
  im1 ∈ instances rm1 → im2 ∈ instances rm2 →
  im_name im1 = im_name im2 →
  CreateContainer ms
  = (Panic (match reflectAll ms with
            | Some _ => NameCollisionError
            | None => ModuleDescriptionError
            end), initial ms).
Proof.
  intros Hvw Hv Hw Hr1 Hr2 H1 H2 Hname.
  unfold CreateContainer. rewrite populate_run.
  destruct (reflectAll ms) as [rms|] eqn:Hrms; [|done].
  apply mapM_Some in Hrms.
  destruct (Forall2_lookup_l _ _ _ _ _ Hrms Hv) as (r1 & Hrv & Hr1').
  destruct (Forall2_lookup_l _ _ _ _ _ Hrms Hw) as (r2 & Hrw & Hr2').
  simplify_eq. unfold createGraph. case_decide as Hnodup; [|done].
  by destruct (factoryNames_shared rms v w rm1 rm2 im1 im2).
Qed.


End guarantees.

(** ** The two indices *)

Section indices.

Context `{Extractor}.

Implicit Types (st : state) (c : container) (t : rtype) (i : instance).
Implicit Types (im : instanceMethod) (ms : list Module).
Implicit Types (log : list (instanceMethod * instance)).

Lemma bindings_app log1 log2 :
  bindings (log1 ++ log2) = bindings log1 ++ bindings log2.
Proof. apply map_app. Qed.

Lemma bindings_take_NoDup log k :
  NoDup (bindings log).*1 → NoDup (bindings (take k log)).*1.
Proof.
  rewrite <- (take_drop k log) at 1. rewrite bindings_app, fmap_app.
  by intros [? _]%NoDup_app.
Qed.

(** A registration whose name is free adds a name; every registration
    appends to the entry of its type. *)
Lemma bindings_fresh log k im i :
  NoDup (bindings log).*1 → log !! k = Some (im, i) →
  im_name im ∉ (bindings (take k log)).*1.
Proof.
  intros Hnodup Hk. rewrite <- (take_drop_middle log k (im, i) Hk) in Hnodup.
  rewrite bindings_app, fmap_app in Hnodup.
  apply NoDup_app in Hnodup as (_ & Hdisj & _).
  intros Hin. apply (Hdisj _ Hin). simpl. apply list_elem_of_here.
Qed.

Lemma namedInstances_replay ms log :
  NoDup (bindings log).*1 →
  namedInstances (replay (newContainer ms) log) ≡ₚ map snd log.
Proof.
  intros Hnodup. unfold namedInstances. rewrite replay_byName. simpl.
  rewrite (right_id_L ∅ (∪)), map_to_list_to_map
    by (by rewrite fmap_reverse, reverse_Permutation).
  rewrite fmap_reverse, reverse_Permutation. unfold bindings.
  clear. induction log as [|call log IH]; [done|]. simpl. by rewrite IH.
Qed.

Lemma typedInstances_register im i c :
  typedInstances (register im i c) ≡ₚ typedInstances c ++ [i].
Proof.
  unfold typedInstances. simpl.
  destruct (instanceByType c !! im_tp im) as [old|] eqn:Hold; simpl.
  - rewrite <- insert_delete_eq.
    rewrite map_to_list_insert by apply lookup_delete_eq.
    rewrite <- (insert_delete_id (instanceByType c) (im_tp im) old Hold) at 2.
    rewrite map_to_list_insert by apply lookup_delete_eq.
    simpl. rewrite <- !app_assoc. apply Permutation_app_head, Permutation_app_comm.
  - rewrite map_to_list_insert by done. simpl.
    by rewrite Permutation_app_comm.
Qed.

Lemma typedInstances_replay c log :
  typedInstances (replay c log) ≡ₚ typedInstances c ++ map snd log.
Proof.
  revert c. induction log as [|[im i] log IH]; intros c.
  - simpl. by rewrite app_nil_r.
  - rewrite replay_cons, IH, typedInstances_register. simpl.
    by rewrite <- app_assoc.
Qed.

Lemma findInstanceByTypeOverTypeIndex_run st t :
  findInstanceByTypeOverTypeIndex t st
  = (match instanceByType (ctr st) !! t with
     | Some l => single t l
     | None =>
         match scan t [] (typedInstances (ctr st)) with
         | Ok found => single t found
         | Panic e => Panic e
         end
     end, st).
Proof.
  unfold findInstanceByTypeOverTypeIndex, findAssignableInTypeIndex,
    bind, getContainer, liftResult, ret, raise.
  destruct (instanceByType (ctr st) !! t) as [l|].
  - by destruct (single t l).
  - destruct (scan t [] _) as [found|e]; [|done]. by destruct (single t found).
Qed.

(** C5.  The state [CreateContainer] leaves, with or without a panic, is
    the fresh container with the registrations of its log of factory calls
    replayed in order.  Each of these registrations binds a name that was
    not bound before, leaves the other names as they were, appends its
    instance to the entry of its type and leaves the other entries as they
    were; so every binding made is still there and every entry lists its
    instances in the order they were made.  The queries change nothing. *)
Theorem registry_append_only ms :
  let st := (CreateContainer ms).2 in
  ctr st = replay (newContainer ms) (calls st)
  ∧ (∀ k im i, calls st !! k = Some (im, i) →
       let before := replay (newContainer ms) (take k (calls st)) in
       let after := register im i before in
       instanceByName before !! im_name im = None
       ∧ instanceByName after !! im_name im = Some i
       ∧ (∀ name, name ≠ im_name im →
            instanceByName after !! name = instanceByName before !! name)
       ∧ instanceByType after !! im_tp im
         = Some (default [] (instanceByType before !! im_tp im) ++ [i])
       ∧ (∀ t, t ≠ im_tp im →
            instanceByType after !! t = instanceByType before !! t))
  ∧ (∀ im i, (im, i) ∈ calls st →
       instanceByName (ctr st) !! im_name im = Some i)
  ∧ (∀ t, default [] (instanceByType (ctr st) !! t)
          = producedOfType t (calls st))
  ∧ (∀ q, (runQuery q st).2 = st).
Proof.
  intros st. destruct (CreateContainer_log ms) as [Hctr Hnodup].
  fold st in Hctr, Hnodup. split_and!.
  - done.
  - intros k im i Hk before after. subst before after. split_and!.
    + rewrite replay_byName_fresh by by eapply bindings_fresh. done.
    + rewrite register_byName. by case_decide.
    + intros name Hne. rewrite register_byName. by case_decide.
    + rewrite register_byType. by case_decide.
    + intros t Hne. rewrite register_byType. by case_decide.
  - intros im i Hin. rewrite Hctr. by apply replay_byName_bound.
  - intros t. rewrite Hctr, replay_byType. simpl.
    by destruct (producedOfType t (calls st)).
  - intros q. apply runQuery_state.
Qed.

(** C9.  In every container met during or after construction (the fresh
    container after any number of the registrations made), for a type with
    no entry in the type index, the lookup whose fallback ranges over the
    name index and the lookup whose fallback ranges over the type index give
    the same result: the same instance or the same panic. *)
Theorem fallback_over_names_or_types ms k t log :
  let c := replay (newContainer ms) (take k (calls (CreateContainer ms).2)) in
  instanceByType c !! t = None →
  findInstanceByType t {| ctr := c; calls := log |}
  = findInstanceByTypeOverTypeIndex t {| ctr := c; calls := log |}.
Proof.
  intros c Hnone.
  rewrite findInstanceByType_run, findInstanceByTypeOverTypeIndex_run.
  simpl. rewrite Hnone. f_equal. apply scan_order.
  destruct (CreateContainer_log ms) as [_ Hnodup]. simpl in Hnodup.
  subst c. rewrite namedInstances_replay by by apply bindings_take_NoDup.
  by rewrite typedInstances_replay.
Qed.

End indices.

(** ** The properties on the sample modules *)

Section examples.

#[local] Existing Instance sampleReflect.
#[local] Existing Instance sampleExtractor.

(** The scenario of the specification: B is instantiated before A,
    [InstanceByName "db"] is B's instance and [Instance Service] is A's. *)
Example scenario_runs :
  (CreateContainer [Some moduleA; Some moduleB]).1 = Ok (ctr scenario)
  ∧ map snd (calls scenario) = [object 2 "Database"; object 1 "Service"]
  ∧ (InstanceByName "db" scenario).1 = Ok (object 2 "Database")
  ∧ (Instance "Service" scenario).1 = Ok (object 1 "Service")
  ∧ (Instance "Store" scenario).1 = Ok (object 2 "Database").
Proof. by vm_compute. Qed.





(** Ping and Pong need each other. *)
Lemma cyclic_modules_rejected_witness :
  ∃ stuck,
    CreateContainer [Some modulePing; Some modulePong]
    = (Panic (CyclicDependencyError stuck),
       initial [Some modulePing; Some modulePong])
    ∧ calls (CreateContainer [Some modulePing; Some modulePong]).2 = []
    ∧ instanceByName (ctr (CreateContainer [Some modulePing; Some modulePong]).2)
      = ∅
    ∧ instanceByType (ctr (CreateContainer [Some modulePing; Some modulePong]).2)
      = ∅.
Proof.
  apply (@cyclic_modules_rejected sampleReflect sampleExtractor
           [Some modulePing; Some modulePong]
           [modulePing; modulePong]
           {| vertices := [modulePing; modulePong];
              dependencies := [[1]; [0]] |}).
  - reflexivity.
  - reflexivity.
  - exists 0. apply tc_l with 1; [|apply tc_once]; apply list_elem_of_here.
Defined.

(** A module that depends on its own factory is a cycle of length one. *)
Example self_dependency_rejected :
  CreateContainer [Some moduleB; Some moduleSelf]
  = (Panic (CyclicDependencyError [1]), initial [Some moduleB; Some moduleSelf]).
Proof. by vm_compute. Qed.

(** The panic of a factory is the panic of [CreateContainer]: the factory
    before it in the module has been called and registered, the one after
    it has not been called. *)
Example factory_panic_goes_up :
  (CreateContainer [Some moduleB; Some moduleBoom]).1
  = Panic (FactoryPanic "boom")
  ∧ map (λ call, im_name call.1)
      (calls (CreateContainer [Some moduleB; Some moduleBoom]).2)
    = ["db"; "first"]
  ∧ (InstanceByName "first"
       (CreateContainer [Some moduleB; Some moduleBoom]).2).1
    = Ok (object 9 "First")
  ∧ (InstanceByName "never"
       (CreateContainer [Some moduleB; Some moduleBoom]).2).1
    = Panic (InstanceNotFoundError (ByName "never")).
Proof. by vm_compute. Qed.

(** B and B' both declare "db". *)
Lemma name_collision_rejected_witness :
  CreateContainer [Some moduleB; Some moduleB']
  = (Panic NameCollisionError, initial [Some moduleB; Some moduleB']).
Proof.
  apply (@name_collision_rejected sampleReflect sampleExtractor
           [Some moduleB; Some moduleB'] 0 1
           (Some moduleB) (Some moduleB') moduleB moduleB'
           factoryDb factoryDb');
    try reflexivity.
  - discriminate.
  - apply list_elem_of_here.
  - apply list_elem_of_here.
Defined.

(** The name index binds "store" to nil and no factory declares [Service]. *)
Lemma Instance_nil_dereference_witness :
  Instance "Service" withNil = (Panic NilPointerDereference, withNil).
Proof.
  apply (@Instance_nil_dereference sampleReflect sampleExtractor
           withNil "Service" "store"); reflexivity.
Defined.

(** No factory of the scenario declares [Store]; both fallbacks find B's
    instance. *)
Lemma fallback_over_names_or_types_witness :
  findInstanceByType "Store" scenario
  = findInstanceByTypeOverTypeIndex "Store" scenario.
Proof.
  apply (@fallback_over_names_or_types sampleReflect sampleExtractor
           [Some moduleA; Some moduleB] 2 "Store"
           (calls scenario)).
  reflexivity.
Defined.

(** C1 on a container that holds a nil instance: the construction succeeds,
    the type index has no entry for [Service], no instance of the name index
    is assignable to [Service], and [Instance Service] panics with a nil
    dereference where the claim has [InstanceNotFoundError]. *)
Theorem Instance_zero_matches_with_nil :
  (CreateContainer [Some moduleB; Some moduleNil]).1 = Ok (ctr withNil)
  ∧ instanceByType (ctr withNil) !! "Service" = None
  ∧ filter (λ i, assignable "Service" i) (namedInstances (ctr withNil)) = []
  ∧ (Instance "Service" withNil).1 = Panic NilPointerDereference
  ∧ (Instance "Service" withNil).1
    ≠ Panic (InstanceNotFoundError (ByType "Service")).
Proof. split_and!; by vm_compute. Qed.

End examples.

(** * Further properties of the code *)

(** ** Lookups *)

Section lookups.

Context `{Extractor}.

Implicit Types (st : state) (c : container) (t : rtype) (i : instance).
Implicit Types (l found : list instance).

Lemma single_cases t l :
  (l = [] → single t l = Panic (InstanceNotFoundError (ByType t)))
  ∧ (∀ i, l = [i] → single t l = Ok i)
  ∧ (1 < length l → single t l = Panic (AmbiguousInstanceError t)).
Proof.
  split_and!.
  - by intros ->.
  - by intros i ->.
  - destruct l as [|x [|y l]]; simpl; [lia|lia|done].
Qed.

(** X1.  Go ranges over [instanceByName] in an order of its choice.  For a
    type without an entry in the type index, whatever the order in which
    the entries are met, the loop of [findAssignableInstances] followed by
    the length checks of [findInstanceByType] gives the result of the
    model. *)
Theorem fallback_order_irrelevant st t (entries : list (string * instance)) :
  entries ≡ₚ map_to_list (instanceByName (ctr st)) →
  instanceByType (ctr st) !! t = None →
  (findInstanceByType t st).1
  = match scan t [] entries.*2 with
    | Ok found => single t found
    | Panic e => Panic e
    end.
Proof.
  intros Hperm Hnone. rewrite findInstanceByType_run, Hnone. simpl.
  apply scan_order. unfold namedInstances. by rewrite Hperm.
Qed.

(** X2.  On a container none of whose named instances is nil, for a type
    without an entry in the type index, [Instance] decides by the dynamic
    types of the named instances: it returns the only instance whose type
    is assignable to the requested one, panics with [InstanceNotFoundError]
    when there is none and with [AmbiguousInstanceError] when there are
    several. *)
Theorem Instance_fallback_by_dynamic_type st t :
  instanceByType (ctr st) !! t = None →
  nil_instance ∉ namedInstances (ctr st) →
  let matches := filter (λ i, assignable t i) (namedInstances (ctr st)) in
  (matches = [] →
     Instance t st = (Panic (InstanceNotFoundError (ByType t)), st))
  ∧ (∀ i, matches = [i] → Instance t st = (Ok i, st))
  ∧ (1 < length matches →
     Instance t st = (Panic (AmbiguousInstanceError t), st)).
Proof.
  intros Hnone Hnil matches. rewrite Instance_run, Hnone by done.
  fold matches. destruct (single_cases t matches) as (Hzero & Hone & Hmany).
  split_and!.
  - intros Hm. by rewrite Hzero.
  - intros i Hm. by rewrite (Hone i).
  - intros Hm. by rewrite Hmany.
Qed.

(** X3.  When the type index has an entry for the requested type, the entry
    alone decides: [Instance] returns its only instance (be it nil, be its
    dynamic type what it may), panics with [AmbiguousInstanceError] when it
    has several and with [InstanceNotFoundError] when it is the empty
    slice.  The named instances are not looked at, so a nil instance among
    them causes no nil dereference. *)
Theorem Instance_exact_entry_decides st t l :
  instanceByType (ctr st) !! t = Some l →
  (∀ i, l = [i] → Instance t st = (Ok i, st))
  ∧ (1 < length l → Instance t st = (Panic (AmbiguousInstanceError t), st))
  ∧ (l = [] → Instance t st = (Panic (InstanceNotFoundError (ByType t)), st))
  ∧ (Instance t st).1 ≠ Panic NilPointerDereference.
Proof.
  intros Hentry. unfold Instance. rewrite findInstanceByType_run, Hentry.
  destruct (single_cases t l) as (Hzero & Hone & Hmany). split_and!.
  - intros i Hl. by rewrite (Hone i).
  - intros Hl. by rewrite Hmany.
  - intros Hl. by rewrite Hzero.
  - simpl. by destruct l as [|x [|y l]].
Qed.

(** X4.  On a container whose two maps are empty (in Go: nil or freshly
    made) every lookup panics with [InstanceNotFoundError]; none is
    ambiguous and none dereferences nil. *)
Theorem empty_container_finds_nothing st t name :
  instanceByName (ctr st) = ∅ → instanceByType (ctr st) = ∅ →
  Instance t st = (Panic (InstanceNotFoundError (ByType t)), st)
  ∧ InstanceByName name st = (Panic (InstanceNotFoundError (ByName name)), st).
Proof.
  intros Hnames Htypes. unfold Instance, InstanceByName.
  rewrite findInstanceByType_run, findInstanceByName_run.
  unfold namedInstances. rewrite Hnames, Htypes, !lookup_empty.
  by rewrite map_to_list_empty.
Qed.

End lookups.

(** ** Instantiating a module *)

Section modules.

Context `{Extractor}.

Implicit Types (st : state) (c : container) (t : rtype) (i : instance).
Implicit Types (rm : reflectedModule) (im : instanceMethod).

(** The name index after the factories of a module: for each name, the
    instance of the last factory of that name. *)
Lemma replay_produced_byName c (f : instanceMethod → instance)
    (ims : list instanceMethod) name :
  instanceByName (replay c (map (λ im, (im, f im)) ims)) !! name
  = match last (filter (λ im, im_name im = name) ims) with
    | Some im => Some (f im)
    | None => instanceByName c !! name
    end.
Proof.
  revert c. induction ims as [|im ims IH]; intros c; [done|].
  cbn [map]. rewrite replay_cons, IH. cbn [fst snd].
  destruct (decide (im_name im = name)) as [Heq|Hne].
  - rewrite filter_cons_True by done.
    destruct (filter _ ims) as [|y l] eqn:Hrest; cbn [last].
    + rewrite register_byName. by case_decide.
    + destruct (last (y :: l)) eqn:Hlast; [done|].
      by apply last_None in Hlast.
  - rewrite filter_cons_False by done.
    destruct (last (filter _ ims)); [done|].
    rewrite register_byName. by case_decide.
Qed.

(** X5.  After a module has been instantiated, each name its factories
    declare is bound to the instance of the last factory of that name in
    the module, whatever the name was bound to before; the names it does
    not declare are bound as before. *)
Theorem instantiateModule_last_name_wins rm st :
  (instantiateModule rm st).1 = Ok tt →
  ∃ fields, ∀ name,
    (InstanceByName name (instantiateModule rm st).2).1
    = match last (filter (λ im, im_name im = name) (instances rm)) with
      | Some im => Ok (im_method im fields)
      | None => (InstanceByName name st).1
      end.
Proof.
  rewrite instantiateModule_run.
  destruct (forEach resolveNamed _ st).1 as [named|e1]; [|done].
  destruct (forEach resolveTyped _ st).1 as [typed|e2]; [|done].
  cbv zeta. cbn [fst]. intros Hok. exists (named ++ typed). intros name.
  unfold InstanceByName. rewrite !findInstanceByName_run. cbn [fst snd ctr].
  rewrite (returned_map _ _ Hok).
  rewrite (replay_produced_byName (ctr st)
             (λ im, im_method im (named ++ typed))).
  by destruct (last (filter _ (instances rm))).
Qed.

(** X6.  Names are looked up without regard to types: when a named slot is
    bound to an instance that cannot be set in its field (the nil instance,
    or one whose dynamic type is not assignable to the field's type), and
    the named slots before it resolve, the module panics in
    [reflect.Value.Set] and the state is as before: no factory has run. *)
Theorem named_slot_not_settable_panics rm st pre dep post i :
  namedDepends rm = pre ++ dep :: post →
  Forall (namedResolves st) pre →
  instanceByName (ctr st) !! nd_name dep = Some i →
  assignable (nd_field dep) i = false →
  instantiateModule rm st = (Panic ReflectSetPanic, st).
Proof.
  intros Hdeps Hpre Hbound Hset. rewrite instantiateModule_run, Hdeps.
  erewrite forEach_Panic; [done|apply resolveNamed_frame| |].
  - eapply Forall_impl; [exact Hpre|]. intros d (j & Hj & Hok).
    exists j. rewrite resolveNamed_run, Hj. simpl.
    by destruct (assignable (nd_field d) j).
  - by rewrite resolveNamed_run, Hbound, Hset.
Qed.

(** X7.  When every named slot resolves and the typed slots before one
    resolve, a panic of the lookup by type for that slot (not found,
    ambiguous, nil dereference) is the panic of the module, and the state
    is as before: no factory has run. *)
Theorem typed_slot_panic_propagates rm st pre dep post e :
  Forall (namedResolves st) (namedDepends rm) →
  typedDepends rm = pre ++ dep :: post →
  Forall (typedResolves st) pre →
  (findInstanceByType (td_tp dep) st).1 = Panic e →
  instantiateModule rm st = (Panic e, st).
Proof.
  intros Hnamed Hdeps Hpre Hpanic. rewrite instantiateModule_run.
  destruct (forEach_all_Ok resolveNamed (namedDepends rm) st resolveNamed_frame)
    as [named ->].
  { eapply Forall_impl; [exact Hnamed|]. intros d (j & Hj & Hok).
    exists j. rewrite resolveNamed_run, Hj. simpl.
    by destruct (assignable (nd_field d) j). }
  rewrite Hdeps. erewrite forEach_Panic; [done|apply resolveTyped_frame| |].
  - eapply Forall_impl; [exact Hpre|]. intros d (j & Hj & Hok).
    exists j. rewrite resolveTyped_run, Hj. simpl.
    by destruct (assignable (td_field d) j).
  - by rewrite resolveTyped_run, Hpanic.
Qed.

End modules.

(** ** The loop over the modules *)

Section loop.

Context `{Extractor}.

Implicit Types (st : state) (c : container) (t : rtype) (i : instance).
Implicit Types (rm : reflectedModule) (order : list reflectedModule).
Implicit Types (log : list (instanceMethod * instance)).

(** The state the loop leaves is the replay of the calls it made. *)
Lemma instantiateAll_log order st :
  ∃ log, (forEach_ instantiateModule order st).2
         = {| ctr := replay (ctr st) log; calls := calls st ++ log |}
         ∧ newCalls st (forEach_ instantiateModule order st).2 = log.
Proof.
  destruct (instantiateAll_run order st) as (log & Hst & _).
  exists log. split; [done|]. unfold newCalls. rewrite Hst. simpl.
  by rewrite drop_app_length.
Qed.

(** X8.  The loop of [populate] only adds, whether it ends or panics: a
    bound name stays bound, every entry of the type index keeps its
    instances in their order at its front, the log of calls is extended and
    [modules] is not touched. *)
Theorem instantiation_only_grows order st :
  let st' := (forEach_ instantiateModule order st).2 in
  (∀ name, is_Some (instanceByName (ctr st) !! name) →
           is_Some (instanceByName (ctr st') !! name))
  ∧ (∀ t, default [] (instanceByType (ctr st) !! t)
          `prefix_of` default [] (instanceByType (ctr st') !! t))
  ∧ (∀ t, is_Some (instanceByType (ctr st) !! t) →
          is_Some (instanceByType (ctr st') !! t))
  ∧ calls st `prefix_of` calls st'
  ∧ modules (ctr st') = modules (ctr st).
Proof.
  intros st'. subst st'.
  destruct (instantiateAll_log order st) as (log & -> & _). simpl.
  split_and!.
  - intros name [i Hi]. rewrite replay_byName.
    destruct ((list_to_map (reverse (bindings log)) : gmap string instance)
                !! name) as [j|] eqn:Hj.
    + exists j. by apply lookup_union_Some_l.
    + exists i. by rewrite lookup_union_r.
  - intros t. rewrite replay_byType.
    destruct (producedOfType t log) as [|j new]; [done|]. simpl.
    by apply prefix_app_r.
  - intros t Hsome. rewrite replay_byType.
    by destruct (producedOfType t log).
  - by apply prefix_app_r.
  - apply replay_modules.
Qed.

(** X9.  An ambiguity of the exact type does not go away: once the entry of
    a type holds several instances, [Instance] for that type panics with
    [AmbiguousInstanceError] after any further run of the loop. *)
Theorem exact_ambiguity_persists order st t l :
  instanceByType (ctr st) !! t = Some l → 1 < length l →
  let st' := (forEach_ instantiateModule order st).2 in
  Instance t st' = (Panic (AmbiguousInstanceError t), st').
Proof.
  intros Hentry Hlen st'. subst st'.
  destruct (instantiateAll_log order st) as (log & -> & _).
  unfold Instance. rewrite findInstanceByType_run. cbn [ctr].
  rewrite replay_byType, Hentry. cbn [default].
  assert (∀ l', 1 < length l' → single t l' = Panic (AmbiguousInstanceError t))
    as Hmany by (intros l'; apply single_cases).
  destruct (producedOfType t log) as [|j new].
  - by rewrite Hmany.
  - rewrite Hmany; [done|]. rewrite length_app. simpl. lia.
Qed.

(** X10.  No run of the loop makes an entry of the type index empty; so a
    type that has an entry is never reported as not found. *)
Theorem type_entries_never_empty order st :
  entriesNonEmpty (ctr st) →
  let st' := (forEach_ instantiateModule order st).2 in
  entriesNonEmpty (ctr st')
  ∧ (∀ t, is_Some (instanceByType (ctr st') !! t) →
          (Instance t st').1 ≠ Panic (InstanceNotFoundError (ByType t))).
Proof.
  intros Hinv st'.
  assert (entriesNonEmpty (ctr st')) as Hinv'.
  { subst st'. destruct (instantiateAll_log order st) as (log & -> & _).
    intros t. cbn [ctr]. rewrite replay_byType.
    destruct (producedOfType t log) as [|j new]; [apply Hinv|].
    intros [= Hnil]. by apply app_eq_nil in Hnil as [_ ?]. }
  split; [done|]. intros t [l Hl]. unfold Instance.
  rewrite findInstanceByType_run, Hl. simpl.
  destruct l as [|x [|y l]]; [|done..]. by destruct (Hinv' t).
Qed.

(** What a module that panics leaves: nothing when a slot panics, the
    calls of the factories before the one that panics otherwise. *)
Lemma instantiateModule_Panic_log rm st e :
  (instantiateModule rm st).1 = Panic e →
  ∃ log,
    (instantiateModule rm st).2
    = {| ctr := replay (ctr st) log; calls := calls st ++ log |}
    ∧ (slotPanic e → log = [])
    ∧ (∀ name, e = FactoryPanic name →
         ∃ im rest, instances rm = map fst log ++ im :: rest
                    ∧ im_name im = name).
Proof.
  rewrite instantiateModule_run.
  assert (∀ e', slotPanic e' →
            ∃ log,
              (Panic e' : result panic unit, st).2
              = {| ctr := replay (ctr st) log; calls := calls st ++ log |}
              ∧ (slotPanic e' → log = [])
              ∧ (∀ name, e' = FactoryPanic name →
                   ∃ im rest, instances rm = map fst log ++ im :: rest
                              ∧ im_name im = name)) as Hslot.
  { intros e' He'. exists []. destruct st. simpl. rewrite app_nil_r.
    split_and!; [done..|]. intros name ->.
    by apply slotPanic_not_factory in He'. }
  destruct (forEach resolveNamed _ st).1 as [named|e1] eqn:Hn.
  - destruct (forEach resolveTyped _ st).1 as [typed|e2] eqn:Ht.
    + cbv zeta. cbn [fst snd].
      intros (done_ & im & rest & Hims & -> & Hret)%factoriesOutcome_Panic.
      exists (returned (named ++ typed) (instances rm)). split_and!.
      * done.
      * by intros ?%slotPanic_not_factory.
      * intros name [= <-]. exists im, rest. split; [|done].
        rewrite Hret, Hims. f_equal. clear.
        induction done_ as [|x l IH]; [done|]. simpl. by rewrite <- IH.
    + simpl. intros [= <-]. apply Hslot. revert Ht.
      apply forEach_Panic_kind. intros dep st' e'. apply resolveTyped_Panic.
  - simpl. intros [= <-]. apply Hslot. revert Hn.
    apply forEach_Panic_kind. intros dep st' e'. apply resolveNamed_Panic.
Qed.

(** X11.  The loop stops at the first module that panics: the modules
    before it have been instantiated, every factory of theirs called once
    and in order, no factory of a later module has been called, and the
    panic and the state are those of that module.  When the panic is that
    of a slot, no factory of that module has been called; when it is that
    of a factory, the factories before it in the module, and no other,
    have been called and registered. *)
Theorem instantiation_stops_at_first_panic order st e :
  (forEach_ instantiateModule order st).1 = Panic e →
  ∃ k rm stk log log',
    order !! k = Some rm
    ∧ forEach_ instantiateModule (take k order) st = (Ok tt, stk)
    ∧ (instantiateModule rm stk).1 = Panic e
    ∧ forEach_ instantiateModule order st = instantiateModule rm stk
    ∧ calls stk = calls st ++ log
    ∧ map fst log = factories (take k order)
    ∧ (instantiateModule rm stk).2
      = {| ctr := replay (ctr stk) log'; calls := calls stk ++ log' |}
    ∧ (slotPanic e → log' = [])
    ∧ (∀ name, e = FactoryPanic name →
         ∃ im rest, instances rm = map fst log' ++ im :: rest
                    ∧ im_name im = name).
Proof.
  revert st. induction order as [|rm order IH]; intros st; [done|].
  cbn [forEach_]. unfold bind.
  destruct (instantiateModule rm st) as [[[]|e1] st1] eqn:Hrm.
  - intros Hrest.
    destruct (IH st1 Hrest) as (k & rm' & stk & log & log' & Hk & Hpre & Hat
                                & Hall & Hcalls & Hlog & Hleft).
    destruct (instantiateModule_Ok rm st) as (log1 & Hfst & Hst1);
      [by rewrite Hrm|].
    rewrite Hrm in Hst1. simpl in Hst1.
    exists (S k), rm', stk, (log1 ++ log), log'. split_and!.
    + done.
    + cbn [take forEach_]. unfold bind. by rewrite Hrm.
    + done.
    + done.
    + rewrite Hcalls, Hst1. simpl. by rewrite app_assoc.
    + rewrite map_app, Hfst, Hlog. done.
    + apply Hleft.
    + apply Hleft.
    + apply Hleft.
  - simpl. intros [= ->].
    destruct (instantiateModule_Panic_log rm st e) as (log' & Hst' & Hleft);
      [by rewrite Hrm|].
    exists 0, rm, st, [], log'. rewrite Hrm in *.
    split_and!; try done; try apply Hleft. by rewrite app_nil_r.
Qed.

(** X12.  Every instance a factory returns is stored in the type index, and
    nothing else is: after the loop the instances of the type index are
    those it had, and those the calls of the loop returned. *)
Theorem type_index_holds_every_product order st :
  let st' := (forEach_ instantiateModule order st).2 in
  typedInstances (ctr st')
  ≡ₚ typedInstances (ctr st) ++ map snd (newCalls st st').
Proof.
  intros st'. subst st'.
  destruct (instantiateAll_log order st) as (log & Hst & ->).
  rewrite Hst. simpl. apply typedInstances_replay.
Qed.

(** X13.  An instance that can be reached by name can be reached in the
    type index: the loop keeps this, with or without names bound twice. *)
Theorem named_instances_stay_typed order st :
  (∀ i, i ∈ namedInstances (ctr st) → i ∈ typedInstances (ctr st)) →
  let st' := (forEach_ instantiateModule order st).2 in
  ∀ i, i ∈ namedInstances (ctr st') → i ∈ typedInstances (ctr st').
Proof.
  intros Hinv st' i. subst st'.
  destruct (instantiateAll_log order st) as (log & -> & _). cbn [ctr].
  rewrite typedInstances_replay, elem_of_app.
  unfold namedInstances at 1. intros Hi.
  apply list_elem_of_fmap in Hi as ([name j] & -> & Hin).
  apply elem_of_map_to_list in Hin. rewrite replay_byName in Hin.
  apply lookup_union_Some_raw in Hin as [Hnew|[_ Hold]].
  - right. apply elem_of_list_to_map_2 in Hnew.
    rewrite elem_of_reverse in Hnew. unfold bindings in Hnew.
    apply list_elem_of_fmap in Hnew as (call & [= _ ->] & Hcall).
    apply list_elem_of_fmap. by exists call.
  - left. apply Hinv. unfold namedInstances.
    apply list_elem_of_fmap. exists (name, j). split; [done|].
    by apply elem_of_map_to_list.
Qed.

(** X14.  [reflectModules] reflects the modules of the container, not those
    of its argument: it returns their descriptors in order, one for each,
    when all are well formed, panics with the extractor's error when one is
    not, and leaves the state as it was. *)
Theorem reflectModules_of_container (arg : list Module) st :
  (reflectModules arg st).2 = st
  ∧ (∀ rms, (reflectModules arg st).1 = Ok rms
            ↔ Forall2 (λ m rm, reflectModule m = Some rm)
                (modules (ctr st)) rms)
  ∧ ((reflectModules arg st).1 = Panic ModuleDescriptionError
     ↔ ∃ m, m ∈ modules (ctr st) ∧ reflectModule m = None)
  ∧ (∀ arg', reflectModules arg' st = reflectModules arg st).
Proof.
  rewrite !reflectModules_run. unfold reflectAll. split_and!.
  - done.
  - intros rms. rewrite <- mapM_Some. simpl.
    destruct (mapM reflectModule (modules (ctr st))); naive_solver.
  - simpl. split.
    + destruct (mapM reflectModule (modules (ctr st))) as [rms|] eqn:Hall;
        [done|]. intros _.
      destruct (decide (Forall (λ m, is_Some (reflectModule m))
                          (modules (ctr st)))) as [Hok|Hbad].
      * apply mapM_is_Some in Hok as [rms Hrms]. congruence.
      * apply not_Forall_Exists, Exists_exists in Hbad as (m & Hm & Hnone);
          [|apply _].
        exists m. split; [done|]. by apply eq_None_not_Some.
    + intros (m & Hm & Hnone).
      destruct (mapM reflectModule (modules (ctr st))) as [rms|] eqn:Hall;
        [|done].
      apply mapM_Some in Hall.
      apply list_elem_of_lookup in Hm as [k Hk].
      destruct (Forall2_lookup_l _ _ _ _ _ Hall Hk) as (rm & _ & Hrm).
      congruence.
  - intros arg'. by rewrite !reflectModules_run.
Qed.

End loop.

(** ** The further properties on the sample modules *)

Section more_examples.

#[local] Existing Instance sampleReflect.
#[local] Existing Instance sampleExtractor.

(** Ranging over the names of the scenario backwards. *)
Lemma fallback_order_irrelevant_witness :
  (findInstanceByType "Store" scenario).1
  = match scan "Store" []
            (reverse (map_to_list (instanceByName (ctr scenario)))).*2 with
    | Ok found => single "Store" found
    | Panic e => Panic e
    end.
Proof.
  apply (@fallback_order_irrelevant sampleReflect sampleExtractor
           scenario "Store"
           (reverse (map_to_list (instanceByName (ctr scenario))))).
  - apply reverse_Permutation.
  - reflexivity.
Defined.

Lemma scenario_without_nil : nil_instance ∉ namedInstances (ctr scenario).
Proof.
  intros Hin. apply list_elem_of_In in Hin. vm_compute in Hin.
  destruct Hin as [Hin|[Hin|[]]]; discriminate Hin.
Defined.

(** In the scenario only B's instance is assignable to [Store]. *)
Lemma Instance_fallback_by_dynamic_type_witness :
  Instance "Store" scenario = (Ok (object 2 "Database"), scenario).
Proof.
  pose proof (@Instance_fallback_by_dynamic_type sampleReflect sampleExtractor
                scenario "Store" eq_refl scenario_without_nil) as Hcases.
  cbv zeta in Hcases. destruct Hcases as (_ & Hone & _).
  apply Hone. reflexivity.
Defined.

(** The entry of [Store] holds the nil instance. *)
Lemma Instance_exact_entry_decides_witness :
  Instance "Store" withNil = (Ok nil_instance, withNil)
  ∧ (Instance "Store" withNil).1 ≠ Panic NilPointerDereference.
Proof.
  pose proof (@Instance_exact_entry_decides sampleReflect sampleExtractor
                withNil "Store" [nil_instance] eq_refl) as (Hone & _ & _ & Hnil).
  split; [by apply Hone|exact Hnil].
Defined.

Lemma empty_container_finds_nothing_witness :
  Instance "Service" (initial [])
  = (Panic (InstanceNotFoundError (ByType "Service")), initial [])
  ∧ InstanceByName "db" (initial [])
    = (Panic (InstanceNotFoundError (ByName "db")), initial []).
Proof.
  apply (@empty_container_finds_nothing sampleReflect sampleExtractor
           (initial []) "Service" "db"); reflexivity.
Defined.

(** B' binds "db" again: the name now gives the instance of B'. *)
Lemma instantiateModule_last_name_wins_witness :
  ∃ fields, ∀ name,
    (InstanceByName name (instantiateModule moduleB' scenario).2).1
    = match last (filter (λ im, im_name im = name) (instances moduleB')) with
      | Some im => Ok (im_method im fields)
      | None => (InstanceByName name scenario).1
      end.
Proof.
  apply (@instantiateModule_last_name_wins sampleReflect sampleExtractor
           moduleB' scenario).
  reflexivity.
Defined.

(** "db" is bound to a [Database], the field is of type [Service]. *)
Lemma named_slot_not_settable_panics_witness :
  instantiateModule moduleWrong scenario = (Panic ReflectSetPanic, scenario).
Proof.
  eapply (@named_slot_not_settable_panics sampleReflect sampleExtractor
            moduleWrong scenario [] _ [] _).
  - reflexivity.
  - constructor.
  - reflexivity.
  - reflexivity.
Defined.

(** [Database] is found, [Logger] is not. *)
Lemma typed_slot_panic_propagates_witness :
  instantiateModule moduleTyped scenario
  = (Panic (InstanceNotFoundError (ByType "Logger")), scenario).
Proof.
  eapply (@typed_slot_panic_propagates sampleReflect sampleExtractor
            moduleTyped scenario [_] _ [] _).
  - constructor.
  - reflexivity.
  - constructor; [|constructor].
    eexists. split; [reflexivity|exact I].
  - reflexivity.
Defined.

(** Two instances of [Database], and A instantiated after them. *)
Lemma exact_ambiguity_persists_witness :
  Instance "Database" (forEach_ instantiateModule [moduleA] twice).2
  = (Panic (AmbiguousInstanceError "Database"),
     (forEach_ instantiateModule [moduleA] twice).2).
Proof.
  eapply (@exact_ambiguity_persists sampleReflect sampleExtractor
            [moduleA] twice "Database" _).
  - vm_compute. reflexivity.
  - simpl. lia.
Defined.

Lemma type_entries_never_empty_witness :
  entriesNonEmpty (ctr (forEach_ instantiateModule [moduleB] (initial [])).2)
  ∧ (∀ t, is_Some (instanceByType
                     (ctr (forEach_ instantiateModule [moduleB] (initial [])).2)
                   !! t) →
          (Instance t (forEach_ instantiateModule [moduleB] (initial [])).2).1
          ≠ Panic (InstanceNotFoundError (ByType t))).
Proof.
  apply (@type_entries_never_empty sampleReflect sampleExtractor
           [moduleB] (initial [])).
  intros t. simpl. by rewrite lookup_empty.
Defined.

(** B is instantiated, Ping panics on "pong", A is not reached. *)
Lemma instantiation_stops_at_first_panic_witness :
  ∃ k rm stk log log',
    [moduleB; modulePing; moduleA] !! k = Some rm
    ∧ forEach_ instantiateModule (take k [moduleB; modulePing; moduleA])
        (initial []) = (Ok tt, stk)
    ∧ (instantiateModule rm stk).1
      = Panic (InstanceNotFoundError (ByName "pong"))
    ∧ forEach_ instantiateModule [moduleB; modulePing; moduleA] (initial [])
      = instantiateModule rm stk
    ∧ calls stk = calls (initial []) ++ log
    ∧ map fst log = factories (take k [moduleB; modulePing; moduleA])
    ∧ (instantiateModule rm stk).2
      = {| ctr := replay (ctr stk) log'; calls := calls stk ++ log' |}
    ∧ (slotPanic (InstanceNotFoundError (ByName "pong")) → log' = [])
    ∧ (∀ name, InstanceNotFoundError (ByName "pong") = FactoryPanic name →
         ∃ im rest, instances rm = map fst log' ++ im :: rest
                    ∧ im_name im = name).
Proof.
  apply (@instantiation_stops_at_first_panic sampleReflect sampleExtractor
           [moduleB; modulePing; moduleA] (initial [])
           (InstanceNotFoundError (ByName "pong"))).
  reflexivity.
Defined.

(** B and B' bind "db" twice. *)
Lemma named_instances_stay_typed_witness :
  im_method factoryDb' []
  ∈ typedInstances
      (ctr (forEach_ instantiateModule [moduleB; moduleB'] (initial [])).2).
Proof.
  apply (@named_instances_stay_typed sampleReflect sampleExtractor
           [moduleB; moduleB'] (initial [])).
  - intros i Hi. vm_compute in Hi. by apply elem_of_nil in Hi.
  - vm_compute. apply list_elem_of_here.
Defined.

End more_examples.
